(** * Factorization machines and the structured Gaussian sampler

    A verification development for the two numerical cores of the
    notebooks: the factorization-machine (FM) scorer with its cached
    incremental updates, and the fast sampler for structured multivariate
    normal distributions.

    Arrays are modelled in exact arithmetic: an ndarray of floats of shape
    (m, n) is a matrix over an ordered field [R], a 1-dimensional array of
    length m is a column vector, [@] is the matrix product and the
    elementwise operations of numpy are written out entry by entry.
    Indices are ordinals, so an index is always in range.  Shapes that
    numpy checks at run time are carried by the types, except where the
    code itself branches on them ([x.ndim], [result.shape[0]],
    [Delta.ndim]); those branches are modelled by tagged unions.  What
    numpy does with shapes that do not fit is modelled apart, in
    [Module Shapes], by running the sampler on shapes alone.

    The file has two parts: the definitions, taken from the notebooks
    function by function, and then the theory. *)

From HB Require Import structures.
From mathcomp Require Import ssreflect ssrfun ssrbool eqtype ssrnat seq choice.
From mathcomp Require Import fintype finfun bigop order ssralg ssrnum ssrint rat.
From mathcomp Require Import matrix mxalgebra algC.
From Stdlib Require Import Ring.

Set Implicit Arguments.
Unset Strict Implicit.
Unset Printing Implicit Defensive.

Import GRing.Theory Num.Theory Order.Theory.
Local Open Scope ring_scope.

(** ** Elementwise array operations *)

Section ArrayOps.

Variable R : realFieldType.

(** [a * b] on two arrays of the same shape. *)
Definition emul m n (a b : 'M[R]_(m, n)) : 'M[R]_(m, n) :=
  map2_mx (fun s t => s * t) a b.

(** [a ** 2]. *)
Definition esquare m n (a : 'M[R]_(m, n)) : 'M[R]_(m, n) :=
  map_mx (fun s => s ^+ 2) a.

(** [np.sum(a, axis=1)]. *)
Definition sum_axis1 m n (a : 'M[R]_(m, n)) : 'cV[R]_m :=
  \col_d \sum_k a d k.

(** [np.ones(m)]. *)
Definition ones m : 'cV[R]_m := const_mx 1.

(** [q[:, k] += dq], the in-place increment of one column. *)
Definition add_col m n (q : 'M[R]_(m, n)) (k : 'I_n) (dq : 'cV[R]_m) :
  'M[R]_(m, n) :=
  \matrix_(d, c) (if c == k then q d c + dq d 0 else q d c).

(** [w[i] = t]. *)
Definition set_entry1 n (w : 'cV[R]_n) (i : 'I_n) (t : R) : 'cV[R]_n :=
  \col_j (if j == i then t else w j 0).

(** [v[i, k] = t]. *)
Definition set_entry2 m n (v : 'M[R]_(m, n)) (i : 'I_m) (k : 'I_n) (t : R) :
  'M[R]_(m, n) :=
  \matrix_(a, c) (if (a == i) && (c == k) then t else v a c).

End ArrayOps.

Notation "a .* b" := (emul a b) (at level 40, left associativity) : ring_scope.

(** ** The factorization machine *)

Section FactorizationMachines.

Variable R : realFieldType.
Variables N K : nat.

(** [self.params = {'b': b, 'w': w, 'v': v}]. *)
Record fm_params := Params {
  param_b : R;
  param_w : 'cV[R]_N;
  param_v : 'M[R]_(N, K)
}.

(** The argument of [predict]: a single row (1-dimensional) or a batch
    (2-dimensional). *)
Inductive fm_input :=
  | Row of 'rV[R]_N
  | Batch D of 'M[R]_(D, N).

(** The value of [predict]: a Python float or a 1-dimensional array. *)
Inductive fm_output :=
  | Scalar of R
  | Scores D of 'cV[R]_D.

(** [x.reshape(1, -1)] for a row, the batch itself otherwise. *)
Definition as_batch (x : fm_input) : {D : nat & 'M[R]_(D, N)} :=
  match x with
  | Row r => existT _ 1%N r
  | Batch D b => existT _ D b
  end.

(** The array [result = bias + linear + inter] of [predict]. *)
Definition predict_result (p : fm_params) D (x : 'M[R]_(D, N)) : 'cV[R]_D :=
  let b := param_b p in
  let w := param_w p in
  let v := param_v p in
  let bias := b in
  let linear := x *m w in
  let inter := 2^-1 *: sum_axis1 (esquare (x *m v) - esquare x *m esquare v) in
  const_mx bias + linear + inter.

(** The last three lines of [predict]:
    [if result.shape[0] == 1: return float(result[0])], else [result]. *)
Definition squeeze_result D : 'cV[R]_D -> fm_output :=
  match D with
  | 1%N => fun result => Scalar (result 0 0)
  | _ => fun result => Scores result
  end.

Definition predict (p : fm_params) (x : fm_input) : fm_output :=
  let: existT D x2 := as_batch x in
  squeeze_result (predict_result p x2).

(** The shape of the returned value: [()] for a float, [(D,)] for an
    array. *)
Definition shape_of (y : fm_output) : seq nat :=
  match y with
  | Scalar _ => [::]
  | Scores D _ => [:: D]
  end.

(** The reference score of one row, the first formula of the notebook:
    bias, linear term and the sum over the pairs [i < j] of the
    factorised interactions. *)
Definition fm_pairwise (p : fm_params) (x : 'rV[R]_N) : R :=
  param_b p + \sum_(i < N) param_w p i 0 * x 0 i
  + \sum_(i < N) \sum_(j < N | (i < j)%N) \sum_(k < K)
      param_v p i k * param_v p j k * x 0 i * x 0 j.

(** *** The linear view: [h_theta] and [g_theta] *)

Definition calc_h_b D (x : 'M[R]_(D, N)) : 'cV[R]_D := ones R D.

Definition calc_h_w D (x : 'M[R]_(D, N)) (i : 'I_N) : 'cV[R]_D := col i x.

Definition calc_h_v D (x : 'M[R]_(D, N)) (v : 'M[R]_(N, K))
    (i : 'I_N) (k : 'I_K) : 'cV[R]_D :=
  col i x .* (x *m col k v - v i k *: col i x).

Definition calc_g D (f h : 'cV[R]_D) (p : R) : 'cV[R]_D := f - p *: h.

(** *** The cached state and its update rules *)

Definition calc_df D (h : 'cV[R]_D) (p_new p_old : R) : 'cV[R]_D :=
  (p_new - p_old) *: h.

Definition calc_q_init D (x : 'M[R]_(D, N)) (v : 'M[R]_(N, K)) :
  'M[R]_(D, K) := x *m v.

Definition calc_dq D (x : 'M[R]_(D, N)) (v_ik_new : R) (v : 'M[R]_(N, K))
    (i : 'I_N) (k : 'I_K) : 'cV[R]_D :=
  (v_ik_new - v i k) *: col i x.

(** The first notebook passes the old value itself:
    [calc_dq(i, x, v_ik_new, v_ik_old)], called with [v[0, 0]]. *)
Definition calc_dq_of_old D (i : 'I_N) (x : 'M[R]_(D, N))
    (v_ik_new v_ik_old : R) : 'cV[R]_D :=
  (v_ik_new - v_ik_old) *: col i x.

Definition calc_h_v_fast D (x : 'M[R]_(D, N)) (v : 'M[R]_(N, K))
    (q : 'M[R]_(D, K)) (i : 'I_N) (k : 'I_K) : 'cV[R]_D :=
  col i x .* (col k q - v i k *: col i x).

(** A single scalar parameter of the model. *)
Inductive theta :=
  | Theta_b
  | Theta_w of 'I_N
  | Theta_v of 'I_N & 'I_K.

(** [fm.params['b']], [fm.params['w'][i]], [fm.params['v'][i, k]]. *)
Definition get_param (p : fm_params) (th : theta) : R :=
  match th with
  | Theta_b => param_b p
  | Theta_w i => param_w p i 0
  | Theta_v i k => param_v p i k
  end.

(** The assignments [fm.params['b'] = t], [fm.params['w'][i] = t] and
    [fm.params['v'][i, k] = t]. *)
Definition set_param (p : fm_params) (th : theta) (t : R) : fm_params :=
  match th with
  | Theta_b => Params t (param_w p) (param_v p)
  | Theta_w i => Params (param_b p) (set_entry1 (param_w p) i t) (param_v p)
  | Theta_v i k => Params (param_b p) (param_w p) (set_entry2 (param_v p) i k t)
  end.

(** [h_theta] computed directly from the parameters. *)
Definition calc_h D (x : 'M[R]_(D, N)) (p : fm_params) (th : theta) :
  'cV[R]_D :=
  match th with
  | Theta_b => calc_h_b x
  | Theta_w i => calc_h_w x i
  | Theta_v i k => calc_h_v x (param_v p) i k
  end.

(** [h_theta] computed from the cached projection [q]. *)
Definition calc_h_fast D (x : 'M[R]_(D, N)) (p : fm_params)
    (q : 'M[R]_(D, K)) (th : theta) : 'cV[R]_D :=
  match th with
  | Theta_b => calc_h_b x
  | Theta_w i => calc_h_w x i
  | Theta_v i k => calc_h_v_fast x (param_v p) q i k
  end.

(** The state of an update loop over a fixed batch: the parameters and
    the cached values [f] and [q]. *)
Record fm_state D := State {
  st_params : fm_params;
  st_f : 'cV[R]_D;
  st_q : 'M[R]_(D, K)
}.

(** Entering the loop: [f = fm.predict(x)] before the squeeze and
    [q = calc_q_init(x, v)]. *)
Definition init_state D (x : 'M[R]_(D, N)) (p : fm_params) : fm_state D :=
  State p (predict_result p x) (calc_q_init x (param_v p)).

(** The increment of [q] for one update: only a change of [v[i, k]]
    touches it, through [q[:, k] += calc_dq(x, v_ik_new, v, i, k)]. *)
Definition update_q D (x : 'M[R]_(D, N)) (v : 'M[R]_(N, K))
    (q : 'M[R]_(D, K)) (th : theta) (t : R) : 'M[R]_(D, K) :=
  match th with
  | Theta_v i k => add_col q k (calc_dq x t v i k)
  | _ => q
  end.

(** One pass of the loop body, in the order of [fast_updates]: [h] from
    the cache, the increments [f += calc_df(h, new, old)] and
    [q[:, k] += calc_dq(...)] computed with the old parameter, then the
    assignment of the new value to the parameter. *)
Definition apply_update D (x : 'M[R]_(D, N)) (s : fm_state D)
    (u : theta * R) : fm_state D :=
  let: (th, p_new) := u in
  let p := st_params s in
  let h := calc_h_fast x p (st_q s) th in
  let f := st_f s + calc_df h p_new (get_param p th) in
  let q := update_q x (param_v p) (st_q s) th p_new in
  State (set_param p th p_new) f q.

(** The loop over a finite sequence of updates. *)
Definition run_updates D (x : 'M[R]_(D, N)) (p : fm_params)
    (us : seq (theta * R)) : fm_state D :=
  foldl (apply_update x) (init_state x p) us.

(** The loop of [fast_updates] on [v] and [q] alone, for any sequence of
    entries and new values: the source runs it with [i = k = 0] and
    [v_ik_new = v[0, 0] - 100]. *)
Definition q_step D (x : 'M[R]_(D, N)) (s : 'M[R]_(N, K) * 'M[R]_(D, K))
    (u : 'I_N * 'I_K * R) : 'M[R]_(N, K) * 'M[R]_(D, K) :=
  let: (v, q) := s in
  let: (i, k, v_ik_new) := u in
  (set_entry2 v i k v_ik_new, add_col q k (calc_dq x v_ik_new v i k)).

Definition q_updates D (x : 'M[R]_(D, N)) (v : 'M[R]_(N, K))
    (us : seq ('I_N * 'I_K * R)) : 'M[R]_(N, K) * 'M[R]_(D, K) :=
  foldl (q_step x) (v, calc_q_init x v) us.

(** The invariant of the update loop: both cached values are what a
    computation from scratch gives for the current parameters. *)
Definition consistent D (x : 'M[R]_(D, N)) (s : fm_state D) : Prop :=
  st_f s = predict_result (st_params s) x
  /\ st_q s = calc_q_init x (param_v (st_params s)).

End FactorizationMachines.

(** ** Linear algebra behind the sampler *)

Section LinearAlgebra.

Variable R : realFieldType.

Definition symmetric n (A : 'M[R]_n) : Prop := A^T = A.

(** [x A x^T > 0] for every non-zero row vector [x]. *)
Definition posdef n (A : 'M[R]_n) : Prop :=
  forall x : 'rV[R]_n, x != 0 -> 0 < (x *m A *m x^T) 0 0.

Definition spd n (A : 'M[R]_n) : Prop := symmetric A /\ posdef A.

(** [np.linalg.solve(A, b)] for a square [A] and a vector [b]: the
    solution of [A w = b], or [None] for the LinAlgError that numpy raises
    on a singular matrix. *)
Definition np_solve n (A : 'M[R]_n) (b : 'cV[R]_n) : option 'cV[R]_n :=
  if A \in unitmx then Some (invmx A *m b) else None.

End LinearAlgebra.

(** ** The structured Gaussian sampler *)

Section GaussianSampler.

Variable R : rcfType.
Variables D N : nat.

(** The argument [Delta]: 1-dimensional (the diagonal) or 2-dimensional. *)
Inductive covariance :=
  | Diagonal of 'cV[R]_N
  | Full of 'M[R]_N.

(** What the generator [rng] delivers during one call: the standard
    normal variates behind the two calls of [rng.normal], and the vector
    returned by [rng.multivariate_normal(np.zeros(N), Delta)].  (For
    [N = 0] that call raises in numpy, see [Shapes.multivariate_normal];
    here the draw is taken as given.) *)
Record draws := Draws {
  draw_z : 'cV[R]_N;
  draw_mvn : 'cV[R]_N;
  draw_eps : 'cV[R]_D
}.

(** [rng.normal(loc, scale)] on the standard normal variates [z]. *)
Definition rng_normal m (loc scale z : 'cV[R]_m) : 'cV[R]_m :=
  loc + scale .* z.

(** [np.diag(d)] for a 1-dimensional [d]. *)
Definition np_diag (d : 'cV[R]_N) : 'M[R]_N := diag_mx d^T.

(** [np.sqrt(a)], elementwise.  On a negative entry numpy yields NaN and
    [Num.sqrt] yields 0; no statement below evaluates it there. *)
Definition np_sqrt m (a : 'cV[R]_m) : 'cV[R]_m := map_mx Num.sqrt a.

Definition sample_gaussian_efficient (Phi : 'M[R]_(D, N)) (alpha : 'cV[R]_D)
    (Delta : covariance) (dr : draws) : option 'cV[R]_N :=
  let: (u, Delta) :=
    match Delta with
    | Diagonal d => (rng_normal 0 (np_sqrt d) (draw_z dr), np_diag d)
    | Full M => (draw_mvn dr, M)
    end in
  let v := rng_normal (Phi *m u) (ones R D) (draw_eps dr) in
  if np_solve (Phi *m Delta *m Phi^T + 1%:M) (alpha - v) is Some w
  then Some (u + Delta *m Phi^T *m w)
  else None.

(** The two local variables of the first step, separately: the draw [u]
    and [Delta] as a 2-dimensional array. *)
Definition sample_u (Delta : covariance) (dr : draws) : 'cV[R]_N :=
  match Delta with
  | Diagonal d => rng_normal 0 (np_sqrt d) (draw_z dr)
  | Full _ => draw_mvn dr
  end.

Definition dense (Delta : covariance) : 'M[R]_N :=
  match Delta with
  | Diagonal d => np_diag d
  | Full M => M
  end.

(** The target distribution, [V = (Phi^T Phi + Delta^-1)^-1] and
    [m = V Phi^T alpha]; the notebook computes them for a diagonal [Delta]
    as [np.linalg.inv(Phi.T @ Phi + np.diag(1 / Delta))] and
    [V @ Phi.T @ alpha]. *)
Definition target_cov (Phi : 'M[R]_(D, N)) (Delta : 'M[R]_N) : 'M[R]_N :=
  invmx (Phi^T *m Phi + invmx Delta).

Definition target_mean (Phi : 'M[R]_(D, N)) (alpha : 'cV[R]_D)
    (Delta : 'M[R]_N) : 'cV[R]_N :=
  target_cov Phi Delta *m Phi^T *m alpha.

(** An affine map of the pair [(u, eps)]. *)
Record affine_map := Affine {
  offset : 'cV[R]_N;
  gain_u : 'M[R]_N;
  gain_eps : 'M[R]_(N, D)
}.

Definition affine_apply (f : affine_map) (u : 'cV[R]_N) (eps : 'cV[R]_D) :
  'cV[R]_N :=
  offset f + gain_u f *m u + gain_eps f *m eps.

(** The covariance of the image of [(u, eps)] when [u] has covariance
    [Delta], [eps] has covariance [I] and the two are uncorrelated. *)
Definition affine_cov (f : affine_map) (Delta : 'M[R]_N) : 'M[R]_N :=
  gain_u f *m Delta *m (gain_u f)^T + gain_eps f *m (gain_eps f)^T.

(** [Delta Phi^T (Phi Delta Phi^T + I)^-1]. *)
Definition sampler_gain (Phi : 'M[R]_(D, N)) (Delta : 'M[R]_N) :
  'M[R]_(N, D) :=
  Delta *m Phi^T *m invmx (Phi *m Delta *m Phi^T + 1%:M).

(** The sampler as an affine map:
    [theta = G alpha + (I - G Phi) u - G eps]. *)
Definition sampler_affine (Phi : 'M[R]_(D, N)) (alpha : 'cV[R]_D)
    (Delta : 'M[R]_N) : affine_map :=
  let G := sampler_gain Phi Delta in
  Affine (G *m alpha) (1%:M - G *m Phi) (- G).

End GaussianSampler.

(** ** First and second moments *)

Section MomentsDef.

Variable R : rcfType.
Variable T : Type.

(** An expectation on the random variables over the outcomes [T]: a
    linear functional that fixes the constants.  The integral against any
    probability measure is one (on the integrable variables). *)
Record expectation (E : (T -> R) -> R) : Prop := Expectation {
  E_ext : forall X Y, (forall o, X o = Y o) -> E X = E Y;
  E_add : forall X Y, E (fun o => X o + Y o) = E X + E Y;
  E_scale : forall c X, E (fun o => c * X o) = c * E X;
  E_const : forall c, E (fun _ => c) = c
}.

(** The expectation of a random matrix, entry by entry. *)
Definition Emx (E : (T -> R) -> R) m n (X : T -> 'M[R]_(m, n)) :
  'M[R]_(m, n) :=
  \matrix_(i, j) E (fun o => X o i j).

(** The covariance matrix of a random vector. *)
Definition cov_of (E : (T -> R) -> R) n (X : T -> 'cV[R]_n) : 'M[R]_n :=
  Emx E (fun o => (X o - Emx E X) *m (X o - Emx E X)^T).

(** The draws as the sampler assumes them, up to second order: [u] is
    centred with covariance [Delta], [eps] is centred with covariance
    [I], and the two are uncorrelated. *)
Record standard_draws (E : (T -> R) -> R) D N (Delta : 'M[R]_N)
    (u : T -> 'cV[R]_N) (eps : T -> 'cV[R]_D) : Prop := StandardDraws {
  u_centred : Emx E u = 0;
  eps_centred : Emx E eps = 0;
  u_cov : Emx E (fun o => u o *m (u o)^T) = Delta;
  eps_cov : Emx E (fun o => eps o *m (eps o)^T) = 1%:M;
  u_eps_uncorrelated : Emx E (fun o => u o *m (eps o)^T) = 0
}.

End MomentsDef.

(** ** The run-time shape checks of numpy

    The sampler run on shapes alone.  Every array operation of the
    function is replaced by the rule numpy applies to the shapes of its
    operands; [None] stands for the exception numpy raises when they do
    not fit.  The arrays of the function have at most two dimensions.
    Whether the linear system is singular depends on the values and is
    not seen here. *)

Module Shapes.

Inductive shape :=
  | Sh0
  | Sh1 of nat
  | Sh2 of nat & nat.

Notation "x <- e ;; k" := (if e is Some x then k else None)
  (at level 60, e at next level, right associativity, only parsing).

(** Broadcasting of one axis: equal lengths, or one of them is 1. *)
Definition bdim (a b : nat) : option nat :=
  if a == b then Some a
  else if a == 1%N then Some b
  else if b == 1%N then Some a
  else None.

(** Broadcasting of two shapes, aligned on the last axis; the rule of the
    elementwise operations [+], [-] and of [rng.normal(loc, scale)]. *)
Definition broadcast (s t : shape) : option shape :=
  match s, t with
  | Sh0, _ => Some t
  | _, Sh0 => Some s
  | Sh1 a, Sh1 b => omap Sh1 (bdim a b)
  | Sh1 a, Sh2 m n => omap (Sh2 m) (bdim a n)
  | Sh2 m n, Sh1 b => omap (Sh2 m) (bdim n b)
  | Sh2 m n, Sh2 p q => r <- bdim m p ;; omap (Sh2 r) (bdim n q)
  end.

(** [a @ b]: the inner lengths must agree, with no broadcasting, and a
    0-dimensional operand is refused. *)
Definition matmul (s t : shape) : option shape :=
  match s, t with
  | Sh1 n, Sh1 k => if n == k then Some Sh0 else None
  | Sh1 n, Sh2 k p => if n == k then Some (Sh1 p) else None
  | Sh2 m n, Sh1 k => if n == k then Some (Sh1 m) else None
  | Sh2 m n, Sh2 k p => if n == k then Some (Sh2 m p) else None
  | _, _ => None
  end.

(** [a.T]. *)
Definition transpose (s : shape) : shape :=
  if s is Sh2 m n then Sh2 n m else s.

(** [np.diag(a)]: a vector becomes a square matrix, a matrix its
    diagonal. *)
Definition np_diag (s : shape) : option shape :=
  match s with
  | Sh0 => None
  | Sh1 n => Some (Sh2 n n)
  | Sh2 m n => Some (Sh1 (minn m n))
  end.

(** [rng.multivariate_normal(mean, cov)]: a 1-dimensional mean and a
    square covariance of the same length.  The length must not be 0:
    numpy reshapes the standard variates to [(-1, n)], which it cannot do
    with an empty array when [n] is 0. *)
Definition multivariate_normal (mean cov : shape) : option shape :=
  match mean, cov with
  | Sh1 n, Sh2 p q =>
      if [&& p == q, n == p & n != 0%N] then Some (Sh1 n) else None
  | _, _ => None
  end.

(** [np.linalg.solve(a, b)]: a square [a]; a 1-dimensional [b] is one
    right-hand side of the length of [a], a 2-dimensional [b] a matrix of
    them. *)
Definition solve (a b : shape) : option shape :=
  match a, b with
  | Sh2 m n, Sh1 k => if (m == n) && (k == m) then Some (Sh1 k) else None
  | Sh2 m n, Sh2 k p => if (m == n) && (k == m) then Some (Sh2 k p) else None
  | _, _ => None
  end.

(** [sample_gaussian_efficient], statement by statement. *)
Definition sample_gaussian_efficient (Phi alpha Delta : shape) :
  option shape :=
  if Phi is Sh2 D N then
    uDelta <- (if Delta is Sh1 _
               then u <- broadcast (Sh1 N) Delta ;;
                    Delta2 <- np_diag Delta ;; Some (u, Delta2)
               else u <- multivariate_normal (Sh1 N) Delta ;;
                    Some (u, Delta)) ;;
    let: (u, Delta) := uDelta in
    Phi_u <- matmul Phi u ;;
    v <- broadcast Phi_u (Sh1 D) ;;
    PhiDelta <- matmul Phi Delta ;;
    PhiDeltaPhiT <- matmul PhiDelta (transpose Phi) ;;
    A <- broadcast PhiDeltaPhiT (Sh2 D D) ;;
    b <- broadcast alpha v ;;
    w <- solve A b ;;
    DeltaPhiT <- matmul Delta (transpose Phi) ;;
    DeltaPhiTw <- matmul DeltaPhiT w ;;
    broadcast u DeltaPhiTw
  else None.

End Shapes.

(** ** Scalars for the [ring] tactic

    The polynomial identities of the development are proved by [ring] on
    a copy of the field whose operations are plain constants. *)

Section ScalarDef.

Variable R : realFieldType.

Definition sc : Type := R.
Definition sc0 : sc := 0.
Definition sc1 : sc := 1.
Definition sadd (a b : sc) : sc := a + b.
Definition smul (a b : sc) : sc := a * b.
Definition ssub (a b : sc) : sc := a - b.
Definition sopp (a : sc) : sc := - a.

End ScalarDef.

(** ** Concrete inputs *)

(** A model with one feature and one factor, and a batch of one row. *)
Definition ex_params : fm_params rat 1 1 := Params 1 (const_mx 3) (const_mx 5).

Definition ex_batch1 : 'M[rat]_(1, 1) := const_mx 2.

(** Two features, one factor, and the row [[1, 2]]. *)
Definition ex_params2 : fm_params rat 2 1 := Params 0 0 (const_mx 1).

Definition ex_row2 : 'rV[rat]_2 := \row_j (j.+1)%:R.

(** A sampler input with [D = N = 1] whose [Delta] is the diagonal [[0]]. *)
Definition ex_Phi : 'M[algR]_(1, 1) := 1%:M.

Definition ex_alpha : 'cV[algR]_1 := const_mx 3.

Definition ex_zero_Delta : covariance algR 1 := Diagonal 0.

Definition ex_draws : draws algR 1 1 := Draws (const_mx 1) 0 (const_mx 1).

(** Four equally likely outcomes: two independent fair signs. *)
Definition sign_of (b : bool) : algR := if b then 1 else -1.

Definition E4 (X : bool * bool -> algR) : algR :=
  (X (true, true) + X (true, false) + X (false, true) + X (false, false))
  / 4%:R.

Definition ex_random_draws (o : bool * bool) : draws algR 1 1 :=
  Draws 0 (const_mx (sign_of o.1)) (const_mx (sign_of o.2)).

Definition ex_unit_Delta : covariance algR 1 := Full 1%:M.

(** ** The regression view and the timing loops of the notebooks *)

Section RegressionView.

Variable R : realFieldType.
Variables N K : nat.

(** The first notebook returns [h_theta] together with the regression
    target [y_theta = y - g_theta]. *)
Definition calc_xy_b D (f : 'cV[R]_D) (b : R) (x_data : 'M[R]_(D, N))
    (y_data : 'cV[R]_D) : 'cV[R]_D * 'cV[R]_D :=
  let x_b := ones R D in
  let y_b := y_data - (f - b *: x_b) in
  (x_b, y_b).

Definition calc_xy_w D (f : 'cV[R]_D) (w : 'cV[R]_N) (x_data : 'M[R]_(D, N))
    (y_data : 'cV[R]_D) (i : 'I_N) : 'cV[R]_D * 'cV[R]_D :=
  let x_w := col i x_data in
  let y_w := y_data - (f - w i 0 *: x_w) in
  (x_w, y_w).

Definition calc_xy_v_naive D (f : 'cV[R]_D) (v : 'M[R]_(N, K))
    (x_data : 'M[R]_(D, N)) (y_data : 'cV[R]_D) (i : 'I_N) (k : 'I_K) :
  'cV[R]_D * 'cV[R]_D :=
  let x_v := col i x_data .* (x_data *m col k v - v i k *: col i x_data) in
  let y_v := y_data - (f - v i k *: x_v) in
  (x_v, y_v).

Definition calc_xy_v D (f : 'cV[R]_D) (q : 'M[R]_(D, K)) (v : 'M[R]_(N, K))
    (x_data : 'M[R]_(D, N)) (y_data : 'cV[R]_D) (i : 'I_N) (k : 'I_K) :
  'cV[R]_D * 'cV[R]_D :=
  let x_v := col i x_data .* (col k q - v i k *: col i x_data) in
  let y_v := y_data - (f - v i k *: x_v) in
  (x_v, y_v).

End RegressionView.

(** The loops that the notebooks time.  They read and write entry
    [[0, 0]] of [v], so [v] has at least one row and one column.  The
    array [v] is [fm.params['v']] itself and is changed in place: the
    functions below return its final value beside the value of the Python
    function, which is [None] when the loop body never ran and the
    returned variable is unbound. *)

Section TimingLoops.

Variable R : realFieldType.
Variables N K : nat.

(** The second notebook: [naive_updates(iter, x)]. *)
Definition naive_body D (x : 'M[R]_(D, N.+1))
    (s : 'M[R]_(N.+1, K.+1) * option 'cV[R]_D) :
  'M[R]_(N.+1, K.+1) * option 'cV[R]_D :=
  let: (v, _) := s in
  let h := calc_h_v x v 0 0 in
  (set_entry2 v 0 0 (v 0 0 - 100%:R), Some h).

Definition naive_updates D (n : nat) (x : 'M[R]_(D, N.+1))
    (v : 'M[R]_(N.+1, K.+1)) : option 'cV[R]_D * 'M[R]_(N.+1, K.+1) :=
  let: (v, h) := iter n (naive_body x) (v, None) in (h, v).

(** The second notebook: [fast_updates(iter, x)]. *)
Definition fast_body D (x : 'M[R]_(D, N.+1))
    (s : 'M[R]_(N.+1, K.+1) * 'M[R]_(D, K.+1) * option 'cV[R]_D) :
  'M[R]_(N.+1, K.+1) * 'M[R]_(D, K.+1) * option 'cV[R]_D :=
  let: (v, q, _) := s in
  let h := calc_h_v_fast x v q 0 0 in
  let v_ik_new := v 0 0 - 100%:R in
  let q := add_col q 0 (calc_dq x v_ik_new v 0 0) in
  (set_entry2 v 0 0 v_ik_new, q, Some h).

Definition fast_updates D (n : nat) (x : 'M[R]_(D, N.+1))
    (v : 'M[R]_(N.+1, K.+1)) : option 'cV[R]_D * 'M[R]_(N.+1, K.+1) :=
  let q := calc_q_init x v in
  let: (v, _, h) := iter n (fast_body x) (v, q, None) in (h, v).

End TimingLoops.

Module FirstNotebook.

Section Loops.

Variable R : realFieldType.
Variables N K : nat.

(** [naive_updates(iter, fm, x_data, y_data)]; [f] is the result of
    [fm.predict(x_data)] as an array. *)
Definition naive_body D (f : 'cV[R]_D) (x_data : 'M[R]_(D, N.+1))
    (y_data : 'cV[R]_D) (s : 'M[R]_(N.+1, K.+1) * option 'cV[R]_D) :
  'M[R]_(N.+1, K.+1) * option 'cV[R]_D :=
  let: (v, _) := s in
  let: (x, y) := calc_xy_v_naive f v x_data y_data 0 0 in
  (set_entry2 v 0 0 (v 0 0 - 100%:R), Some x).

Definition naive_updates D (n : nat) (fm : fm_params R N.+1 K.+1)
    (x_data : 'M[R]_(D, N.+1)) (y_data : 'cV[R]_D) :
  option 'cV[R]_D * 'M[R]_(N.+1, K.+1) :=
  let f := predict_result fm x_data in
  let v := param_v fm in
  let: (v, x) := iter n (naive_body f x_data y_data) (v, None) in (x, v).

(** [fast_updates(iter, fm, x_data, y_data)]. *)
Definition fast_body D (f : 'cV[R]_D) (x_data : 'M[R]_(D, N.+1))
    (y_data : 'cV[R]_D)
    (s : 'M[R]_(N.+1, K.+1) * 'M[R]_(D, K.+1) * option 'cV[R]_D) :
  'M[R]_(N.+1, K.+1) * 'M[R]_(D, K.+1) * option 'cV[R]_D :=
  let: (v, q, _) := s in
  let: (x, y) := calc_xy_v f q v x_data y_data 0 0 in
  let v_ik_new := v 0 0 - 100%:R in
  let q := add_col q 0 (calc_dq_of_old 0 x_data v_ik_new (v 0 0)) in
  (set_entry2 v 0 0 v_ik_new, q, Some x).

Definition fast_updates D (n : nat) (fm : fm_params R N.+1 K.+1)
    (x_data : 'M[R]_(D, N.+1)) (y_data : 'cV[R]_D) :
  option 'cV[R]_D * 'M[R]_(N.+1, K.+1) :=
  let v := param_v fm in
  let f := predict_result fm x_data in
  let q := calc_q_init x_data v in
  let: (v, _, x) := iter n (fast_body f x_data y_data) (v, q, None) in (x, v).

End Loops.

End FirstNotebook.

(** ** The direct computation of the target *)

Section DirectTarget.

Variable R : rcfType.
Variables D N : nat.

(** [x A x^T >= 0] for every row vector [x]. *)
Definition possemidef n (A : 'M[R]_n) : Prop :=
  forall x : 'rV[R]_n, 0 <= (x *m A *m x^T) 0 0.

(** [np.linalg.inv(A)], with [None] for the LinAlgError on a singular
    matrix. *)
Definition np_inv n (A : 'M[R]_n) : option 'M[R]_n :=
  if A \in unitmx then Some (invmx A) else None.

(** The cell that sets up the comparison, for a 1-dimensional [Delta]:
    [V = np.linalg.inv(Phi.T @ Phi + np.diag(1 / Delta))] and
    [m = V @ Phi.T @ alpha]. *)
Definition direct_V (Phi : 'M[R]_(D, N)) (Delta : 'cV[R]_N) :
  option 'M[R]_N :=
  np_inv (Phi^T *m Phi + np_diag (map_mx (fun a => 1 / a) Delta)).

Definition direct_m (Phi : 'M[R]_(D, N)) (alpha : 'cV[R]_D)
    (Delta : 'cV[R]_N) : option 'cV[R]_N :=
  if direct_V Phi Delta is Some V then Some (V *m Phi^T *m alpha) else None.

End DirectTarget.

(** Two parameters and two updates of them, on rational numbers. *)
Definition ex_theta_b : theta 1 1 := Theta_b 1 1.

Definition ex_theta_w : theta 1 1 := Theta_w 1 0.

(** The draws that are all zero. *)
Definition zero_draws (R : rcfType) D N : draws R D N := Draws 0 0 0.

(** Two fair signs again, delivered as the standard variates [z] and
    [eps] of the two calls of [rng.normal]. *)
Definition ex_diag_draws (o : bool * bool) : draws algR 1 1 :=
  Draws (const_mx (sign_of o.1)) 0 (const_mx (sign_of o.2)).

Definition ex_ones_Delta : 'cV[algR]_1 := const_mx 1.

(** * Theory *)

(** ** Polynomial identities *)

Section ScalarIdentities.

Variable R : realFieldType.

Lemma sc_ring_theory :
  ring_theory (sc0 R) (sc1 R) (@sadd R) (@smul R) (@ssub R) (@sopp R) eq.
Proof.
split=> //.
- exact: add0r.
- exact: addrC.
- exact: addrA.
- exact: mul1r.
- exact: mulrC.
- exact: mulrA.
- exact: mulrDl.
- exact: subrr.
Qed.

Add Ring sc_ring : sc_ring_theory.

Lemma sc_slope_v (q x t c s : sc R) :
  ssub (ssub (smul (sadd q (ssub (smul x t) (smul x c)))
                   (sadd q (ssub (smul x t) (smul x c))))
             (sadd s (ssub (smul (smul x x) (smul t t))
                           (smul (smul x x) (smul c c)))))
       (ssub (smul q q) s)
  = sadd (smul (ssub t c) (smul x (ssub q (smul c x))))
         (smul (ssub t c) (smul x (ssub q (smul c x)))).
Proof. ring. Qed.

Lemma slope_v (q x t c s : R) :
  ((q + (x * t - x * c)) ^+ 2 - (s + (x ^+ 2 * t ^+ 2 - x ^+ 2 * c ^+ 2)))
  - (q ^+ 2 - s) = ((t - c) * (x * (q - c * x))) *+ 2.
Proof. rewrite !expr2 mulr2n; exact: sc_slope_v. Qed.

Lemma sc_pair_term (a b c d : sc R) :
  smul (smul a b) (smul c d) = smul (smul (smul b d) a) c.
Proof. ring. Qed.

Lemma pair_term (a b c d : R) : (a * b) * (c * d) = b * d * a * c.
Proof. exact: sc_pair_term. Qed.

Lemma sc_avg_add (a1 a2 a3 a4 b1 b2 b3 b4 h : sc R) :
  smul (sadd (sadd (sadd (sadd a1 b1) (sadd a2 b2)) (sadd a3 b3)) (sadd a4 b4)) h
  = sadd (smul (sadd (sadd (sadd a1 a2) a3) a4) h)
         (smul (sadd (sadd (sadd b1 b2) b3) b4) h).
Proof. ring. Qed.

Lemma avg_add (a1 a2 a3 a4 b1 b2 b3 b4 h : R) :
  (a1 + b1 + (a2 + b2) + (a3 + b3) + (a4 + b4)) * h
  = (a1 + a2 + a3 + a4) * h + (b1 + b2 + b3 + b4) * h.
Proof. exact: sc_avg_add. Qed.

Lemma sc_avg_scale (c a1 a2 a3 a4 h : sc R) :
  smul (sadd (sadd (sadd (smul c a1) (smul c a2)) (smul c a3)) (smul c a4)) h
  = smul c (smul (sadd (sadd (sadd a1 a2) a3) a4) h).
Proof. ring. Qed.

Lemma avg_scale (c a1 a2 a3 a4 h : R) :
  (c * a1 + c * a2 + c * a3 + c * a4) * h = c * ((a1 + a2 + a3 + a4) * h).
Proof. exact: sc_avg_scale. Qed.

Lemma avg_const (c : R) : (c + c + c + c) / 4%:R = c.
Proof.
have -> : c + c + c + c = c * 4%:R.
  by rewrite mulr_natr !mulrS mulr0n addr0 !addrA.
by rewrite mulfK // pnatr_eq0.
Qed.

End ScalarIdentities.

(** ** Finite sums *)

Section SumLemmas.

Variable R : realFieldType.

(** Two sums that differ in one term. *)
Lemma sum_set1 n (F G : 'I_n -> R) (i : 'I_n) :
  (forall j, j != i -> F j = G j) ->
  \sum_j F j = \sum_j G j + (F i - G i).
Proof.
move=> FG; rewrite (bigD1 i) //= [in RHS](bigD1 i) //=.
rewrite (eq_bigr G) => [j /FG //|].
by rewrite addrAC [G i + _]addrC subrK.
Qed.

(** The square of a sum, less the squares, is twice the sum over the
    pairs [i < j]. *)
Lemma sum_sq_pairs n (a : 'I_n -> R) :
  (\sum_i a i) ^+ 2 - \sum_i a i ^+ 2
  = (\sum_(i < n) \sum_(j < n | (i < j)%N) a i * a j) *+ 2.
Proof.
rewrite expr2 big_distrlr /=.
have split3 (i : 'I_n) : \sum_j a i * a j
    = \sum_(j < n | (i < j)%N) a i * a j
      + \sum_(j < n | (j < i)%N) a i * a j + a i ^+ 2.
  rewrite (bigID (fun j : 'I_n => (i < j)%N)) /= -addrA; congr (_ + _).
  rewrite (bigD1 i) ?ltnn //=.
  rewrite -expr2 addrC; congr (_ + _).
  by apply: eq_bigl => j; rewrite -leqNgt ltn_neqAle andbC.
rewrite (eq_bigr _ (fun i _ => split3 i)) !big_split /= addrK mulr2n.
congr (_ + _).
rewrite (exchange_big_dep xpredT) //=.
apply: eq_bigr => j _; apply: eq_bigr => i _.
by rewrite mulrC.
Qed.

End SumLemmas.

(** ** The factorization machine *)

Section FMTheory.

Variable R : realFieldType.
Variables N K : nat.
Implicit Types (p : fm_params R N K) (th : theta N K).

Lemma half_double (y : R) : 2^-1 * (y *+ 2) = y.
Proof. by rewrite -[y *+ 2]mulr_natl mulrA mulVf ?mul1r // pnatr_eq0. Qed.

Lemma predict_resultE p D (x : 'M[R]_(D, N)) d :
  predict_result p x d 0
  = param_b p + \sum_i x d i * param_w p i 0
    + 2^-1 * \sum_k ((\sum_i x d i * param_v p i k) ^+ 2
                     - \sum_i x d i ^+ 2 * param_v p i k ^+ 2).
Proof.
rewrite /predict_result !mxE; congr (_ + _ + _ * _).
apply: eq_bigr => k _; rewrite !mxE; congr (_ - _).
by apply: eq_bigr => i _; rewrite !mxE.
Qed.

Lemma calc_h_vE D (x : 'M[R]_(D, N)) (v : 'M[R]_(N, K)) i k d :
  calc_h_v x v i k d 0 = x d i * (\sum_j x d j * v j k - v i k * x d i).
Proof.
rewrite /calc_h_v /emul !mxE; congr (_ * (_ - _)).
by apply: eq_bigr => j _; rewrite !mxE.
Qed.

Lemma proj_set_entry2 D (x : 'M[R]_(D, N)) (v : 'M[R]_(N, K)) i k t d :
  \sum_j x d j * set_entry2 v i k t j k
  = \sum_j x d j * v j k + (x d i * t - x d i * v i k).
Proof.
rewrite (sum_set1 (G := fun j => x d j * v j k) (i := i)) ?mxE ?eqxx //.
by move=> j /negPf ji; rewrite !mxE ji.
Qed.

Lemma sq_set_entry2 D (x : 'M[R]_(D, N)) (v : 'M[R]_(N, K)) i k t d :
  \sum_j x d j ^+ 2 * set_entry2 v i k t j k ^+ 2
  = \sum_j x d j ^+ 2 * v j k ^+ 2
    + (x d i ^+ 2 * t ^+ 2 - x d i ^+ 2 * v i k ^+ 2).
Proof.
rewrite (sum_set1 (G := fun j => x d j ^+ 2 * v j k ^+ 2) (i := i)) ?mxE ?eqxx //.
by move=> j /negPf ji; rewrite !mxE ji.
Qed.

Lemma set_entry2_other (v : 'M[R]_(N, K)) i k t j k' :
  k' != k -> set_entry2 v i k t j k' = v j k'.
Proof. by move=> /negPf kk; rewrite mxE kk andbF. Qed.

(** The score is affine in each single parameter, with slope [h_theta]. *)
Lemma predict_affine D (x : 'M[R]_(D, N)) p th t :
  predict_result (set_param p th t) x
  = predict_result p x + (t - get_param p th) *: calc_h x p th.
Proof.
apply/colP => d; rewrite [RHS]mxE !predict_resultE.
case: th => [|i|i k] /=.
- by rewrite !mxE mulr1 [RHS]addrC !addrA subrK.
- have -> : \sum_j x d j * set_entry1 (param_w p) i t j 0
            = \sum_j x d j * param_w p j 0 + x d i * (t - param_w p i 0).
    have /(sum_set1 (i := i)) -> : forall j, j != i ->
        x d j * set_entry1 (param_w p) i t j 0 = x d j * param_w p j 0.
      by move=> j /negPf ji; rewrite !mxE ji.
    by rewrite mxE eqxx mulrBr.
  rewrite !mxE [x d i * _]mulrC.
  by rewrite -!addrA; congr (_ + (_ + _)); rewrite addrC.
- rewrite [(_ *: calc_h_v _ _ _ _) d 0]mxE calc_h_vE.
  set S' := \sum_k (_ ^+ 2 - _); set S := \sum_k (_ ^+ 2 - _).
  suff -> : S' = S + ((t - param_v p i k)
                      * (x d i * (\sum_j x d j * param_v p j k
                                  - param_v p i k * x d i))) *+ 2.
    by rewrite [2^-1 * (S + _)]mulrDr half_double addrA.
  have /(sum_set1 (i := k)) : forall k', k' != k ->
      (\sum_j x d j * set_entry2 (param_v p) i k t j k') ^+ 2
      - \sum_j x d j ^+ 2 * set_entry2 (param_v p) i k t j k' ^+ 2
      = (\sum_j x d j * param_v p j k') ^+ 2
        - \sum_j x d j ^+ 2 * param_v p j k' ^+ 2.
    move=> k' kk; congr (_ ^+ 2 - _).
      by apply: eq_bigr => j _; rewrite set_entry2_other.
    by apply: eq_bigr => j _; rewrite set_entry2_other.
  by rewrite proj_set_entry2 sq_set_entry2 slope_v.
Qed.

(** [h_theta] does not depend on the value of [theta]. *)
Lemma calc_h_indep D (x : 'M[R]_(D, N)) p th t :
  calc_h x (set_param p th t) th = calc_h x p th.
Proof.
case: th => [|i|i k] //=.
apply/colP => d; rewrite !calc_h_vE proj_set_entry2 mxE !eqxx /=.
congr (_ * _).
by rewrite [t * _]mulrC addrA addrAC addrK [param_v p i k * _]mulrC.
Qed.

Lemma get_set_param p th t : get_param (set_param p th t) th = t.
Proof. by case: th => [|i|i k] //=; rewrite mxE !eqxx. Qed.

Lemma squeeze_result_inj D : injective (@squeeze_result R D).
Proof.
case: D => [|[|D]] f g /=.
- by move=> _; apply/colP; case.
- by case=> e; apply/colP => d; rewrite !ord1.
- case=> e; exact: (Eqdep_dec.inj_pair2_eq_dec _ PeanoNat.Nat.eq_dec _ _ _ _ e).
Qed.

(** Both notebooks compute the same increment of [q]. *)
Lemma calc_dqE D (x : 'M[R]_(D, N)) (v : 'M[R]_(N, K)) i k t :
  calc_dq x t v i k = calc_dq_of_old i x t (v i k).
Proof. by []. Qed.

(** With [q = x @ v] the cached derivative is the direct one. *)
Lemma calc_h_v_fastE D (x : 'M[R]_(D, N)) (v : 'M[R]_(N, K)) i k :
  calc_h_v_fast x v (x *m v) i k = calc_h_v x v i k.
Proof. by rewrite /calc_h_v_fast /calc_h_v !colE mulmxA. Qed.

Lemma calc_h_fast_correct D (x : 'M[R]_(D, N)) p q th :
  q = calc_q_init x (param_v p) -> calc_h_fast x p q th = calc_h x p th.
Proof. by case: th => [|i|i k] //= ->; exact: calc_h_v_fastE. Qed.

(** One increment keeps [q] equal to the projection [x @ v]. *)
Lemma update_q_correct D (x : 'M[R]_(D, N)) p q th t :
  q = calc_q_init x (param_v p) ->
  update_q x (param_v p) q th t = calc_q_init x (param_v (set_param p th t)).
Proof.
move=> ->; case: th => [|i|i k] //=; rewrite /calc_q_init /calc_dq.
apply/matrixP => d c; rewrite !mxE.
case: (eqVneq c k) => [->|ck].
  by rewrite proj_set_entry2 -mulrBr [x d i * _]mulrC.
by apply: eq_bigr => j _; rewrite set_entry2_other.
Qed.


Lemma init_consistent D (x : 'M[R]_(D, N)) p : consistent x (init_state x p).
Proof. by []. Qed.

Lemma apply_update_consistent D (x : 'M[R]_(D, N)) (s : fm_state R N K D) u :
  consistent x s -> consistent x (apply_update x s u).
Proof.
case: u => th t [fE qE]; split; rewrite /apply_update /=.
  by rewrite predict_affine fE (calc_h_fast_correct _ qE).
exact: update_q_correct.
Qed.

Lemma run_updates_consistent D (x : 'M[R]_(D, N)) p us :
  consistent x (run_updates x p us).
Proof.
rewrite /run_updates; elim/last_ind: us => [|us u IH]; first exact: init_consistent.
by rewrite -cats1 foldl_cat /=; apply: apply_update_consistent.
Qed.


Lemma q_step_correct D (x : 'M[R]_(D, N))
    (s : 'M[R]_(N, K) * 'M[R]_(D, K)) u :
  s.2 = calc_q_init x s.1 -> (q_step x s u).2 = calc_q_init x (q_step x s u).1.
Proof.
case: s u => v q [[i k] t] /= qE.
exact: (@update_q_correct D x (Params 0 0 v) q (Theta_v i k) t qE).
Qed.

(** The loop assigns the requested entries of [v], in order. *)
Lemma q_updates_v D (x : 'M[R]_(D, N)) (v : 'M[R]_(N, K)) us :
  (q_updates x v us).1
  = foldl (fun v' u => set_entry2 v' u.1.1 u.1.2 u.2) v us.
Proof.
rewrite /q_updates; elim/last_ind: us => [|us u IH] //.
rewrite -cats1 !foldl_cat /= -IH.
by case: (foldl _ _ us) u => v' q' [[i k] t].
Qed.

Lemma q_updates_q D (x : 'M[R]_(D, N)) (v : 'M[R]_(N, K)) us :
  (q_updates x v us).2 = x *m (q_updates x v us).1.
Proof.
rewrite /q_updates; elim/last_ind: us => [|us u IH] //.
by rewrite -cats1 foldl_cat /=; apply: q_step_correct.
Qed.

(** C2. With [q] initialised by [calc_q_init(x, v)] and, at every update
    of one entry [v[i, k]] to [v_ik_new], column [k] of [q] incremented by
    [calc_dq(x, v_ik_new, v, i, k)] before the entry is assigned, after
    any number of such updates the current [v] is the initial one with
    the requested entries assigned in order, and [q] is [x @ v] for it,
    entry by entry. *)
Theorem q_invariant D (x : 'M[R]_(D, N)) (v : 'M[R]_(N, K)) us :
  let v_now := foldl (fun v' u => set_entry2 v' u.1.1 u.1.2 u.2) v us in
  (q_updates x v us).1 = v_now /\ (q_updates x v us).2 = x *m v_now.
Proof. by move=> v_now; rewrite q_updates_q q_updates_v. Qed.

(** The loop assigns the requested values to the parameters, in order. *)
Lemma run_updates_params D (x : 'M[R]_(D, N)) p us :
  st_params (run_updates x p us)
  = foldl (fun p' u => set_param p' u.1 u.2) p us.
Proof.
rewrite /run_updates; elim/last_ind: us => [|us u IH] //.
by rewrite -cats1 !foldl_cat /= -IH; case: u.
Qed.

(** C1. For every batch [x], every initial [(b, w, v)] and every finite
    sequence [us] of updates of one scalar parameter ([b], some [w_i] or
    some [v_ik]), after each prefix of the sequence the current parameters
    are the initial ones with the updates of the prefix assigned in order,
    and the cached vector [f], updated by [f + calc_df(h, new, old)] with
    [h] taken from the cache and [q] maintained by its increment, is the
    array [predict] computes from scratch with these parameters; hence so
    is the value [predict] returns. *)
Theorem incremental_predict_equiv D (x : 'M[R]_(D, N)) p us n :
  let s := run_updates x p (take n us) in
  let p_now := foldl (fun p' u => set_param p' u.1 u.2) p (take n us) in
  [/\ st_params s = p_now,
      st_f s = predict_result p_now x
    & squeeze_result (st_f s) = predict p_now (Batch x)].
Proof.
move=> s p_now; have [fE _] := run_updates_consistent x p (take n us).
have pE : st_params s = p_now by apply: run_updates_params.
by split; rewrite // /predict /= -pE -fE.
Qed.

(** C3. For every batch [x], parameters [(b, w, v)] and scalar parameter
    [theta] among [b], [w_i], [v_ik]: the prediction is
    [f = theta * h_theta + g_theta] with [h_theta] from [calc_h_b],
    [calc_h_w], [calc_h_v] and [g_theta = calc_g(f, h_theta, theta)], and
    both [h_theta] and [g_theta] keep their value when [theta] alone is
    replaced by any [t]. *)
Theorem fm_linear_in_theta D (x : 'M[R]_(D, N)) p th :
  let f := predict_result p x in
  let h := calc_h x p th in
  let g := calc_g f h (get_param p th) in
  f = get_param p th *: h + g
  /\ forall t,
       let p' := set_param p th t in
       calc_h x p' th = h
       /\ calc_g (predict_result p' x) (calc_h x p' th) (get_param p' th) = g.
Proof.
move=> f h g; split; first by rewrite /g /calc_g addrC subrK.
move=> t p'; rewrite /p' calc_h_indep get_set_param; split=> //.
rewrite /g /f /calc_g predict_affine -/h scalerBl.
by rewrite -addrA [_ - _ - _]addrAC subrr sub0r.
Qed.

(** C4. For a single row [x], [predict] returns the reference score
    [b + sum_i w_i x_i + sum_(i < j) sum_k v_ik v_jk x_i x_j]. *)
Theorem predict_row_pairwise p (x : 'rV[R]_N) :
  predict p (Row x) = Scalar (fm_pairwise p x).
Proof.
rewrite /predict /= predict_resultE /fm_pairwise; congr (Scalar (_ + _ + _)).
  by apply: eq_bigr => i _; rewrite mulrC.
have pairs k : (\sum_i x 0 i * param_v p i k) ^+ 2
                - \sum_i x 0 i ^+ 2 * param_v p i k ^+ 2
    = (\sum_(i < N) \sum_(j < N | (i < j)%N)
         (x 0 i * param_v p i k) * (x 0 j * param_v p j k)) *+ 2.
  rewrite -(sum_sq_pairs (fun i => x 0 i * param_v p i k)); congr (_ - _).
  by apply: eq_bigr => i _; rewrite exprMn.
rewrite (eq_bigr _ (fun k _ => pairs k)).
rewrite sumrMnl half_double exchange_big /=; apply: eq_bigr => i _.
rewrite exchange_big /=; apply: eq_bigr => j _; apply: eq_bigr => k _.
exact: pair_term.
Qed.

(** C7. For every batch [x], factor matrix [v] and indices [i], [k], the
    derivative [calc_h_v_fast(x, v, q, i, k)] computed from the cache
    [q = x @ v] is the direct [calc_h_v(x, v, i, k)]. *)
Theorem calc_h_v_fast_correct D (x : 'M[R]_(D, N)) (v : 'M[R]_(N, K)) i k :
  calc_h_v_fast x v (calc_q_init x v) i k = calc_h_v x v i k.
Proof. exact: calc_h_v_fastE. Qed.

(** C9, amended. For a batch of [D] rows [predict] returns a vector of
    length [D] when [D] is not 1 and a scalar when [D] is 1, and for a
    single row it returns a scalar: the function converts every result of
    length 1 to a float, whatever the dimension of the input. *)
Theorem predict_shape p :
  (forall D (x : 'M[R]_(D, N)),
      shape_of (predict p (Batch x)) = if D == 1%N then [::] else [:: D])
  /\ (forall r : 'rV[R]_N, shape_of (predict p (Row r)) = [::]).
Proof. by split=> [[|[|D]] x|r]. Qed.

(** C10. An update to the value a parameter already has changes nothing
    in the cache: [calc_df(h, p, p)] is the zero vector,
    [calc_dq(x, v[i, k], v, i, k)] is the zero vector, and the update of
    the state with the old value as new value leaves [f] and [q] as they
    were. *)
Theorem unchanged_update_identity :
  (forall D (h : 'cV[R]_D) t, calc_df h t t = 0)
  /\ (forall D (x : 'M[R]_(D, N)) (v : 'M[R]_(N, K)) i k,
         calc_dq x (v i k) v i k = 0)
  /\ (forall D (x : 'M[R]_(D, N)) (s : fm_state R N K D) th,
         let s' := apply_update x s (th, get_param (st_params s) th) in
         st_f s' = st_f s /\ st_q s' = st_q s).
Proof.
have df0 D (h : 'cV[R]_D) t : calc_df h t t = 0.
  by rewrite /calc_df subrr scale0r.
have dq0 D (x : 'M[R]_(D, N)) (v : 'M[R]_(N, K)) i k :
    calc_dq x (v i k) v i k = 0.
  by rewrite /calc_dq subrr scale0r.
split=> //; split=> // D x s th /=; rewrite df0 addr0; split=> //.
case: th => [|i|i k] //=; rewrite dq0.
by apply/matrixP => d c; rewrite !mxE addr0 if_same.
Qed.

End FMTheory.


(** ** Positive definite matrices *)

Section LinearAlgebra.

Variable R : realFieldType.


Lemma gramE n (x : 'rV[R]_n) : (x *m x^T) 0 0 = \sum_i x 0 i ^+ 2.
Proof. by rewrite mxE; apply: eq_bigr => i _; rewrite mxE expr2. Qed.

Lemma gram_ge0 n (x : 'rV[R]_n) : 0 <= (x *m x^T) 0 0.
Proof. by rewrite gramE sumr_ge0 // => i _; rewrite sqr_ge0. Qed.

Lemma gram_gt0 n (x : 'rV[R]_n) : x != 0 -> 0 < (x *m x^T) 0 0.
Proof.
move=> xn0; rewrite lt_neqAle gram_ge0 andbT eq_sym gramE.
have sq_ge0 (i : 'I_n) : true -> 0 <= x 0 i ^+ 2 by rewrite sqr_ge0.
apply: contra xn0; rewrite (psumr_eq0 _ sq_ge0) => /allP x0.
apply/eqP/rowP => i; rewrite mxE; apply/eqP.
by have /= := x0 i (mem_index_enum i); rewrite expf_eq0.
Qed.

Lemma posdef_ge0 n (A : 'M[R]_n) (x : 'rV[R]_n) :
  posdef A -> 0 <= (x *m A *m x^T) 0 0.
Proof.
move=> pdA; case: (eqVneq x 0) => [->|/pdA /ltW //].
by rewrite !mul0mx mxE.
Qed.

Lemma posdef_unit n (A : 'M[R]_n) : posdef A -> A \in unitmx.
Proof.
move=> pdA; rewrite -row_free_unit; apply: inj_row_free => x xA.
apply/eqP; apply: contraT => /pdA.
by rewrite xA mul0mx mxE ltxx.
Qed.

Lemma posdef1 n : posdef (1%:M : 'M[R]_n).
Proof. by move=> x /gram_gt0; rewrite mulmx1. Qed.

Lemma posdef_congr n m (A : 'M[R]_n) (B : 'M[R]_(m, n)) (x : 'rV[R]_m) :
  (x *m (B *m A *m B^T) *m x^T) 0 0 = ((x *m B) *m A *m (x *m B)^T) 0 0.
Proof. by rewrite trmx_mul !mulmxA. Qed.

(** [Phi Delta Phi^T + I] is positive definite as soon as [Delta] is. *)
Lemma posdef_system D N (Phi : 'M[R]_(D, N)) (Delta : 'M[R]_N) :
  posdef Delta -> posdef (Phi *m Delta *m Phi^T + 1%:M).
Proof.
move=> pdD x xn0; rewrite mulmxDr mulmxDl mxE mulmx1 posdef_congr.
by rewrite ltr_wpDl ?gram_gt0 ?posdef_ge0.
Qed.

Lemma symmetric_inv n (A : 'M[R]_n) : symmetric A -> symmetric (invmx A).
Proof. by rewrite /symmetric trmx_inv => ->. Qed.

Lemma posdef_inv n (A : 'M[R]_n) : spd A -> posdef (invmx A).
Proof.
case=> symA pdA x xn0; have uA := posdef_unit pdA.
have -> : x *m invmx A *m x^T = (x *m invmx A) *m A *m (x *m invmx A)^T.
  have symI : (invmx A)^T = invmx A := symmetric_inv symA.
  by rewrite trmx_mul symI mulmxKV // mulmxA.
apply: pdA; apply: contra xn0 => /eqP xA0.
by rewrite -(mulmxKV uA x) xA0 mul0mx.
Qed.

(** [Phi^T Phi + Delta^-1] is positive definite when [Delta] is SPD. *)
Lemma posdef_precision D N (Phi : 'M[R]_(D, N)) (Delta : 'M[R]_N) :
  spd Delta -> posdef (Phi^T *m Phi + invmx Delta).
Proof.
move=> /posdef_inv pdI x xn0; rewrite mulmxDr mulmxDl mxE.
have -> : x *m (Phi^T *m Phi) *m x^T = (x *m Phi^T) *m (x *m Phi^T)^T.
  by rewrite trmx_mul trmxK !mulmxA.
by rewrite ltr_wpDl ?gram_ge0 ?pdI.
Qed.

End LinearAlgebra.

(** ** The sampler as an affine map *)

Section GaussianSampler.

Variable R : rcfType.
Variables D N : nat.

Implicit Types (Phi : 'M[R]_(D, N)) (alpha : 'cV[R]_D).
Implicit Types (Delta : covariance R N) (dr : draws R D N).

Lemma emul_ones m (z : 'cV[R]_m) : ones R m .* z = z.
Proof. by apply/colP => i; rewrite !mxE mul1r. Qed.

(** The function with its two local variables named. *)
Lemma sampleE Phi alpha Delta dr :
  sample_gaussian_efficient Phi alpha Delta dr
  = let u := sample_u Delta dr in
    let v := Phi *m u + draw_eps dr in
    omap (fun w => u + dense Delta *m Phi^T *m w)
         (np_solve (Phi *m dense Delta *m Phi^T + 1%:M) (alpha - v)).
Proof.
rewrite /sample_gaussian_efficient.
by case: Delta => [d|M] /=; rewrite /rng_normal emul_ones; case: np_solve.
Qed.

Lemma np_solve_unit n (A : 'M[R]_n) b :
  A \in unitmx -> np_solve A b = Some (invmx A *m b).
Proof. by rewrite /np_solve => ->. Qed.

Lemma sample_affine Phi alpha Delta dr :
  Phi *m dense Delta *m Phi^T + 1%:M \in unitmx ->
  sample_gaussian_efficient Phi alpha Delta dr
  = Some (affine_apply (sampler_affine Phi alpha (dense Delta))
            (sample_u Delta dr) (draw_eps dr)).
Proof.
move=> uS; rewrite sampleE /= np_solve_unit //=; congr Some.
rewrite /affine_apply /sampler_affine /sampler_gain /=.
set u := sample_u _ _; set G := _ *m invmx _.
rewrite -!mulmxA [invmx _ *m _]mulmxBr [invmx _ *m (_ + _)]mulmxDr.
rewrite !mulmxA -/G mulmxBl mul1mx mulNmx opprD !mulmxDr !mulmxN.
rewrite -!mulmxA !addrA; congr (_ + _).
by rewrite [u + _]addrC.
Qed.

(** The gain is [V Phi^T]. *)
Lemma sampler_gainE Phi (Delta : 'M[R]_N) :
  spd Delta -> sampler_gain Phi Delta = target_cov Phi Delta *m Phi^T.
Proof.
move=> spdD; have [_ pdD] := spdD.
have uD := posdef_unit pdD.
have uS := posdef_unit (posdef_system Phi pdD).
have uP := posdef_unit (posdef_precision Phi spdD).
rewrite /sampler_gain /target_cov.
set S := _ + 1%:M in uS *; set P := _ + invmx _ in uP *.
have PS : P *m (Delta *m Phi^T) = Phi^T *m S.
  by rewrite /P /S mulmxDl mulmxDr mulmx1 !mulmxA mulVmx // mul1mx.
by rewrite -[LHS](mulKmx uP) [P *m _]mulmxA PS -mulmxA mulmxV // mulmx1.
Qed.

(** For a diagonal [Delta] without zero entry, [Delta^-1] is the
    [np.diag(1 / Delta)] of the notebook. *)
Lemma invmx_np_diag (d : 'cV[R]_N) :
  (forall i, d i 0 != 0) ->
  invmx (np_diag d) = np_diag (map_mx (fun a => 1 / a) d).
Proof.
move=> d_n0.
have dV : np_diag d *m np_diag (map_mx (fun a => 1 / a) d) = 1%:M.
  rewrite /np_diag mulmx_diag -diag_const_mx; congr diag_mx.
  by apply/rowP => j; rewrite !mxE mul1r divff.
have [ud _] := mulmx1_unit dV.
by rewrite -[RHS](mulKmx ud) dV mulmx1.
Qed.

Lemma target_cov_sym Phi (Delta : 'M[R]_N) :
  symmetric Delta -> symmetric (target_cov Phi Delta).
Proof.
move=> symD; apply: symmetric_inv; rewrite /symmetric.
by rewrite linearD /= trmx_mul trmxK (symmetric_inv symD).
Qed.

Lemma sampler_cov Phi alpha (Delta : 'M[R]_N) :
  spd Delta ->
  affine_cov (sampler_affine Phi alpha Delta) Delta = target_cov Phi Delta.
Proof.
move=> spdD; have [symD pdD] := spdD.
have uD := posdef_unit pdD.
have uP := posdef_unit (posdef_precision Phi spdD).
have symV : (target_cov Phi Delta)^T = target_cov Phi Delta.
  exact: target_cov_sym.
have symI : (invmx Delta)^T = invmx Delta := symmetric_inv symD.
rewrite /affine_cov /sampler_affine /= sampler_gainE //.
set V := target_cov Phi Delta in symV *.
have VP : V *m (Phi^T *m Phi) + V *m invmx Delta = 1%:M.
  by rewrite -mulmxDr mulVmx.
have -> : 1%:M - V *m Phi^T *m Phi = V *m invmx Delta.
  by rewrite -VP -mulmxA addrC addKr.
rewrite mulNmx linearN /= mulmxN opprK !trmx_mul trmxK symV symI.
rewrite -[V *m invmx Delta *m Delta]mulmxA mulVmx // mulmx1.
rewrite !mulmxA -mulmxDl -[V *m Phi^T *m Phi]mulmxA -mulmxDr addrC.
by rewrite -/(target_cov Phi Delta) -/V /V /target_cov mulVmx // mul1mx.
Qed.

Lemma sampler_mean Phi alpha (Delta : 'M[R]_N) :
  spd Delta ->
  offset (sampler_affine Phi alpha Delta) = target_mean Phi alpha Delta.
Proof. by move=> spdD; rewrite /= sampler_gainE. Qed.

(** C6. For every [Phi] and every symmetric positive definite [Delta],
    the matrix [Phi Delta Phi^T + I] is positive definite, hence
    invertible: for every right-hand side the linear solve returns the
    unique solution, and the sampler raises no error. *)
Theorem solve_never_fails Phi Delta :
  spd (dense Delta) ->
  let S := Phi *m dense Delta *m Phi^T + 1%:M in
  [/\ posdef S, S \in unitmx,
      forall b : 'cV[R]_D, exists2 w,
        np_solve S b = Some w
        & S *m w = b /\ forall w', S *m w' = b -> w' = w
    & forall alpha dr, sample_gaussian_efficient Phi alpha Delta dr <> None].
Proof.
case=> _ pdD S; have pdS : posdef S by apply: posdef_system.
have uS := posdef_unit pdS; split=> // [b|alpha dr].
  exists (invmx S *m b); first exact: np_solve_unit.
  by split=> [|w' <-]; rewrite ?mulKVmx ?mulKmx.
by rewrite sample_affine.
Qed.

(** The sampler is the affine map [sampler_affine], whose offset is [m]
    and whose covariance is [V]. *)
Lemma sampler_moments Phi alpha (Delta : covariance R N) :
  spd (dense Delta) ->
  let f := sampler_affine Phi alpha (dense Delta) in
  [/\ forall dr, sample_gaussian_efficient Phi alpha Delta dr
                 = Some (affine_apply f (sample_u Delta dr) (draw_eps dr)),
      offset f = target_mean Phi alpha (dense Delta)
    & affine_cov f (dense Delta) = target_cov Phi (dense Delta)].
Proof.
move=> spdD f; split; last exact: sampler_cov.
  move=> dr; apply: sample_affine; apply: posdef_unit.
  by apply: posdef_system; case: spdD.
exact: sampler_mean.
Qed.

End GaussianSampler.

(** ** Expectations of affine maps *)

Section Moments.

Variable R : rcfType.
Variable T : Type.


Variable E : (T -> R) -> R.
Hypothesis EP : expectation E.

Lemma E_sum (I : Type) (s : seq I) (F : I -> T -> R) :
  E (fun o => \sum_(k <- s) F k o) = \sum_(k <- s) E (F k).
Proof.
elim: s => [|k s IH].
  by rewrite big_nil -[RHS](E_const EP); apply: E_ext => // o; rewrite big_nil.
rewrite big_cons -IH -(E_add EP); apply: E_ext => // o.
by rewrite big_cons.
Qed.

Lemma Emx_ext m n (X Y : T -> 'M[R]_(m, n)) :
  (forall o, X o = Y o) -> Emx E X = Emx E Y.
Proof.
by move=> XY; apply/matrixP => i j; rewrite !mxE; apply: E_ext => // o; rewrite XY.
Qed.

Lemma Emx_const m n (A : 'M[R]_(m, n)) : Emx E (fun _ => A) = A.
Proof. by apply/matrixP => i j; rewrite mxE (E_const EP). Qed.

Lemma Emx_add m n (X Y : T -> 'M[R]_(m, n)) :
  Emx E (fun o => X o + Y o) = Emx E X + Emx E Y.
Proof.
apply/matrixP => i j; rewrite !mxE -(E_add EP); apply: E_ext => // o.
by rewrite mxE.
Qed.

Lemma Emx_mulmxl m n p (A : 'M[R]_(m, n)) (X : T -> 'M[R]_(n, p)) :
  Emx E (fun o => A *m X o) = A *m Emx E X.
Proof.
apply/matrixP => i j; rewrite !mxE.
have -> : E (fun o => (A *m X o) i j) = E (fun o => \sum_k A i k * X o k j).
  by apply: E_ext => // o; rewrite mxE.
rewrite E_sum; apply: eq_bigr => k _.
by rewrite (E_scale EP) mxE.
Qed.

Lemma Emx_tr m n (X : T -> 'M[R]_(m, n)) :
  Emx E (fun o => (X o)^T) = (Emx E X)^T.
Proof.
by apply/matrixP => i j; rewrite !mxE; apply: E_ext => // o; rewrite mxE.
Qed.

Lemma Emx_mulmxr m n p (X : T -> 'M[R]_(m, n)) (B : 'M[R]_(n, p)) :
  Emx E (fun o => X o *m B) = Emx E X *m B.
Proof.
apply: trmx_inj; rewrite trmx_mul -!Emx_tr -Emx_mulmxl.
by apply: Emx_ext => o; rewrite trmx_mul.
Qed.

Variables D N : nat.

(** Mean and covariance of the affine image of the draws. *)
Lemma affine_moments (f : affine_map R D N) (Delta : 'M[R]_N)
    (u : T -> 'cV[R]_N) (eps : T -> 'cV[R]_D) :
  Emx E u = 0 -> Emx E eps = 0 ->
  Emx E (fun o => u o *m (u o)^T) = Delta ->
  Emx E (fun o => eps o *m (eps o)^T) = 1%:M ->
  Emx E (fun o => u o *m (eps o)^T) = 0 ->
  Emx E (fun o => affine_apply f (u o) (eps o)) = offset f
  /\ cov_of E (fun o => affine_apply f (u o) (eps o))
     = affine_cov f Delta.
Proof.
move=> Eu Ee Euu Eee Eue.
have mean : Emx E (fun o => affine_apply f (u o) (eps o)) = offset f.
  rewrite /affine_apply !Emx_add !Emx_mulmxl Emx_const Eu Ee.
  by rewrite !mulmx0 !addr0.
split=> //; rewrite /cov_of mean /affine_cov.
set A := gain_u f; set B := gain_eps f.
have Eeu : Emx E (fun o => eps o *m (u o)^T) = 0.
  rewrite -[RHS]trmx0 -Eue -Emx_tr; apply: Emx_ext => o.
  by rewrite trmx_mul trmxK.
pose Y o :=
   A *m (u o *m (u o)^T) *m A^T + A *m (u o *m (eps o)^T) *m B^T
   + (B *m (eps o *m (u o)^T) *m A^T + B *m (eps o *m (eps o)^T) *m B^T).
have -> : Emx E (fun o => (affine_apply f (u o) (eps o) - offset f)
                          *m (affine_apply f (u o) (eps o) - offset f)^T)
          = Emx E Y; last first.
  rewrite /Y !Emx_add !Emx_mulmxr !Emx_mulmxl Euu Eee Eue Eeu.
  by rewrite !mulmx0 !mul0mx addr0 add0r mulmx1.
apply: Emx_ext => o; rewrite /Y.
have -> : affine_apply f (u o) (eps o) - offset f = A *m u o + B *m eps o.
  by rewrite /affine_apply addrAC [offset f + _]addrC addrK.
by rewrite linearD /= !trmx_mul mulmxDl !mulmxDr !mulmxA.
Qed.

(** The first step on a diagonal [Delta]: scaling standard variates by
    [np.sqrt(Delta)] gives a centred draw of covariance [np.diag(Delta)],
    as long as no entry of [Delta] is negative. *)
Lemma diagonal_draw_moments (d : 'cV[R]_N) (z : T -> 'cV[R]_N)
    (eps : T -> 'cV[R]_D) :
  (forall i, 0 <= d i 0) ->
  standard_draws E 1%:M z eps ->
  standard_draws E (np_diag d) (fun o => rng_normal 0 (np_sqrt d) (z o)) eps.
Proof.
move=> d_ge0 [Ez Ee Ezz Eee Eze].
pose A : 'M[R]_N := diag_mx (np_sqrt d)^T.
have uE o : rng_normal 0 (np_sqrt d) (z o) = A *m z o.
  apply/colP => i; rewrite /A mul_diag_mx !mxE add0r.
  by congr (_ * _); rewrite !mxE.
have AA : A *m A^T = np_diag d.
  rewrite /A tr_diag_mx mulmx_diag /np_diag; congr diag_mx.
  by apply/rowP => j; rewrite !mxE -expr2 sqr_sqrtr.
split=> //.
- by rewrite (Emx_ext uE) Emx_mulmxl Ez mulmx0.
- have /Emx_ext -> : forall o,
      rng_normal 0 (np_sqrt d) (z o) *m (rng_normal 0 (np_sqrt d) (z o))^T
      = A *m (z o *m (z o)^T) *m A^T.
    by move=> o; rewrite !uE trmx_mul !mulmxA.
  by rewrite Emx_mulmxr Emx_mulmxl Ezz mulmx1.
- have /Emx_ext -> : forall o,
      rng_normal 0 (np_sqrt d) (z o) *m (eps o)^T = A *m (z o *m (eps o)^T).
    by move=> o; rewrite uE mulmxA.
  by rewrite Emx_mulmxl Eze mulmx0.
Qed.

End Moments.

Section SamplerMoments.

Variable R : rcfType.
Variables (T : Type) (E : (T -> R) -> R).
Variables D N : nat.

(** C5. For every [Phi], [alpha], symmetric positive definite [Delta] and
    every realization of the draws, the sampler returns
    [theta = u + Delta Phi^T (Phi Delta Phi^T + I)^-1 (alpha - Phi u - eps)];
    and whenever [u] is centred with covariance [Delta], [eps] is centred
    with covariance [I] and the two are uncorrelated, under any
    expectation, [theta] has mean [m = V Phi^T alpha] and covariance
    [V = (Phi^T Phi + Delta^-1)^-1].  An affine map of Gaussian draws is
    Gaussian, so these two moments are its distribution. *)
Theorem sampler_mean_covariance (Phi : 'M[R]_(D, N)) (alpha : 'cV[R]_D)
    (Delta : covariance R N) (dr : T -> draws R D N) :
  let u o := sample_u Delta (dr o) in
  let eps o := draw_eps (dr o) in
  let S := Phi *m dense Delta *m Phi^T + 1%:M in
  expectation E ->
  spd (dense Delta) ->
  standard_draws E (dense Delta) u eps ->
  exists theta : T -> 'cV[R]_N,
    [/\ forall o, sample_gaussian_efficient Phi alpha Delta (dr o)
                  = Some (theta o),
        forall o, theta o = u o + dense Delta *m Phi^T
                                  *m (invmx S *m (alpha - Phi *m u o - eps o)),
        Emx E theta = target_mean Phi alpha (dense Delta)
      & cov_of E theta = target_cov Phi (dense Delta)].
Proof.
move=> u eps S EP spdD [Eu Ee Euu Eee Eue].
have [aff mean cov] := sampler_moments Phi alpha spdD.
have uS : S \in unitmx.
  by apply: posdef_unit; apply: posdef_system; case: spdD.
pose f := sampler_affine Phi alpha (dense Delta).
exists (fun o => affine_apply f (u o) (eps o)).
have [Em Ec] := affine_moments EP f Eu Ee Euu Eee Eue.
split=> [o|o||]; first exact: aff.
- have := aff (dr o); rewrite sampleE /= np_solve_unit //= => -[<-].
  by rewrite opprD addrA.
- by rewrite Em -mean.
- by rewrite Ec cov.
Qed.

End SamplerMoments.

(** ** The development on concrete inputs *)

Lemma E4_expectation : expectation E4.
Proof.
split=> [X Y XY|X Y|c X|c]; rewrite /E4.
- by rewrite !XY.
- exact: avg_add.
- exact: avg_scale.
- exact: avg_const.
Qed.

Lemma spd1 (R : realFieldType) n : spd (1%:M : 'M[R]_n).
Proof. by split; [exact: trmx1 | exact: posdef1]. Qed.

Lemma ex_standard_draws :
  standard_draws E4 (dense ex_unit_Delta)
    (fun o => sample_u ex_unit_Delta (ex_random_draws o))
    (fun o => draw_eps (ex_random_draws o)).
Proof.
split; apply/matrixP => i j; rewrite !mxE /E4 /=.
- by rewrite !mxE /= addrK subrr mul0r.
- by rewrite !mxE /= [1 + -1 + 1]addrAC addrK subrr mul0r.
- by rewrite !mxE !big_ord1 !mxE /= !mulrNN !mulr1 avg_const !ord1.
- by rewrite !mxE !big_ord1 !mxE /= !mulrNN !mulr1 avg_const !ord1.
- rewrite !mxE !big_ord1 !mxE /= !mulr1 mulrN1 mulrNN mulr1.
  by rewrite subrr sub0r addNr mul0r.
Qed.

(** The theorem of C5 on two fair signs, with [D = N = 1]. *)
Lemma sampler_mean_covariance_witness :
  exists theta : bool * bool -> 'cV[algR]_1,
    [/\ forall o, sample_gaussian_efficient ex_Phi ex_alpha ex_unit_Delta
                    (ex_random_draws o) = Some (theta o),
        forall o, theta o
          = sample_u ex_unit_Delta (ex_random_draws o)
            + dense ex_unit_Delta *m ex_Phi^T
              *m (invmx (ex_Phi *m dense ex_unit_Delta *m ex_Phi^T + 1%:M)
                  *m (ex_alpha
                      - ex_Phi *m sample_u ex_unit_Delta (ex_random_draws o)
                      - draw_eps (ex_random_draws o))),
        Emx E4 theta = target_mean ex_Phi ex_alpha (dense ex_unit_Delta)
      & cov_of E4 theta = target_cov ex_Phi (dense ex_unit_Delta)].
Proof.
apply: sampler_mean_covariance.
- exact: E4_expectation.
- exact: spd1.
- exact: ex_standard_draws.
Defined.

(** The theorem of C6 at [Phi = [[1]]], [Delta = [[1]]]. *)
Lemma solve_never_fails_witness :
  let S := ex_Phi *m dense ex_unit_Delta *m ex_Phi^T + 1%:M in
  [/\ posdef S, S \in unitmx,
      forall b : 'cV[algR]_1, exists2 w,
        np_solve S b = Some w
        & S *m w = b /\ forall w', S *m w' = b -> w' = w
    & forall alpha dr,
        sample_gaussian_efficient ex_Phi alpha ex_unit_Delta dr <> None].
Proof. exact: (solve_never_fails ex_Phi (Delta := ex_unit_Delta) (spd1 _ _)). Defined.

(** C9, counterexample. On the 2-dimensional batch [[[2]]] of one row
    [predict] returns the float 7, not a vector of length 1. *)
Lemma predict_batch_of_one_is_scalar :
  predict ex_params (Batch ex_batch1) = Scalar 7
  /\ shape_of (predict ex_params (Batch ex_batch1)) <> [:: 1%N].
Proof.
split=> //; rewrite /predict /= predict_resultE; congr Scalar.
rewrite !big_ord1 !mxE exprMn subrr mulr0 addr0.
by [].
Qed.

(** C8, counterexample. The diagonal [Delta = [0]] is not positive
    definite, and the sampler returns a value on it. *)
Lemma sampler_accepts_zero_Delta :
  ~ posdef (dense ex_zero_Delta)
  /\ sample_gaussian_efficient ex_Phi ex_alpha ex_zero_Delta ex_draws = Some 0.
Proof.
have dense0 : dense ex_zero_Delta = 0 by rewrite /= /np_diag trmx0 linear0.
split.
  rewrite dense0 => /(_ (const_mx 1)); rewrite mulmx0 mul0mx mxE ltxx.
  suff n0 : (const_mx 1 : 'rV[algR]_1) != 0 by move=> /(_ n0).
  by apply/eqP => /rowP /(_ 0) /eqP; rewrite !mxE oner_eq0.
have u0 : sample_u ex_zero_Delta ex_draws = 0.
  by apply/colP => i; rewrite !mxE sqrtr0 mul0r addr0.
rewrite sampleE; cbv zeta.
rewrite dense0 u0 mulmx0 mul0mx add0r np_solve_unit ?unitmx1 //=.
by rewrite !mul0mx addr0.
Qed.

(** ** What makes the sampler raise *)

Section ShapeTheory.

Import Shapes.

Lemma bdim_same a : bdim a a = Some a.
Proof. by rewrite /bdim eqxx. Qed.

(** Shapes that fit: the call returns a vector of length [N]; with a
    2-dimensional [Delta] this needs [N] not to be 0. *)
Lemma shapes_fit D N :
  Shapes.sample_gaussian_efficient (Sh2 D N) (Sh1 D) (Sh1 N) = Some (Sh1 N)
  /\ ((0 < N)%N ->
      Shapes.sample_gaussian_efficient (Sh2 D N) (Sh1 D) (Sh2 N N)
      = Some (Sh1 N)).
Proof.
split=> [|/lt0n_neq0 N0]; rewrite /Shapes.sample_gaussian_efficient;
  by do 8![rewrite ?bdim_same ?eqxx ?N0 /=].
Qed.

(** An [alpha] of length 1 is broadcast against [v] whatever [D] is. *)
Lemma alpha_of_length_one_broadcasts D N :
  Shapes.sample_gaussian_efficient (Sh2 D N) (Sh1 1) (Sh1 N) = Some (Sh1 N).
Proof.
rewrite /Shapes.sample_gaussian_efficient; do 4![rewrite ?bdim_same ?eqxx /=].
have -> : bdim 1 D = Some D by rewrite /bdim eq_sym; case: eqP => [->|].
by do 4![rewrite ?bdim_same ?eqxx /=].
Qed.

Lemma alpha_too_long D N Delta :
  (0 < D)%N -> Delta = Sh1 N \/ Delta = Sh2 N N ->
  Shapes.sample_gaussian_efficient (Sh2 D N) (Sh1 D.+1) Delta = None.
Proof.
move=> D0 DeltaE.
have bD : broadcast (Sh1 D.+1) (Sh1 D)
          = if D == 1%N then Some (Sh1 2) else None.
  rewrite /= /bdim (gtn_eqF (ltnSn D)) eqSS (gtn_eqF D0).
  by case: eqP => [->|].
case: DeltaE => ->; rewrite /Shapes.sample_gaussian_efficient.
  do 4![rewrite ?bdim_same ?eqxx /=].
  by move: bD => /= ->; case: eqP => [->|_]; do 4![rewrite ?bdim_same ?eqxx /=].
rewrite [multivariate_normal _ _]/= !eqxx /=; case: (N != 0%N) => //=.
do 4![rewrite ?bdim_same ?eqxx /=].
by move: bD => /= ->; case: eqP => [->|_]; do 4![rewrite ?bdim_same ?eqxx /=].
Qed.

End ShapeTheory.

(** C8, amended. The sampler does not check whether [Delta] is positive
    definite (it has no check of its own at all).  A mismatch of shapes as
    in the example is reported: with [Phi] of shape [(D, N)], [D >= 1],
    and [Delta] of shape [(N,)] or [(N, N)], an [alpha] of length [D + 1]
    makes numpy raise on the shapes. *)
Theorem sampler_rejection (D N : nat) :
  (0 < D)%N ->
  Shapes.sample_gaussian_efficient
    (Shapes.Sh2 D N) (Shapes.Sh1 D.+1) (Shapes.Sh1 N) = None
  /\ Shapes.sample_gaussian_efficient
       (Shapes.Sh2 D N) (Shapes.Sh1 D.+1) (Shapes.Sh2 N N) = None.
Proof.
by move=> D0; split; apply: alpha_too_long => //; [left | right].
Qed.

(** The theorem of C8 at [D = 2], [N = 3]. *)
Lemma sampler_rejection_witness :
  Shapes.sample_gaussian_efficient
    (Shapes.Sh2 2 3) (Shapes.Sh1 3) (Shapes.Sh1 3) = None
  /\ Shapes.sample_gaussian_efficient
       (Shapes.Sh2 2 3) (Shapes.Sh1 3) (Shapes.Sh2 3 3) = None.
Proof. exact: (@sampler_rejection 2 3 isT). Defined.

(** ** Small runs *)

Example predict_single_row : predict ex_params (Row ex_batch1) = Scalar 7.
Proof.
rewrite /predict /= predict_resultE; congr Scalar.
by rewrite !big_ord1 !mxE exprMn subrr mulr0 addr0.
Qed.

(** Two features with one factor: the only pair contributes
    [v_0 v_1 x_0 x_1 = 2]. *)
Example predict_two_features : predict ex_params2 (Row ex_row2) = Scalar 2.
Proof.
rewrite /predict /= predict_resultE; congr Scalar.
rewrite !big_ord_recl !big_ord0 !mxE /=.
by [].
Qed.

(** * Further properties of the code *)

(** ** Scoring a batch, and the regression view *)

Section FMBatch.

Variable R : realFieldType.
Variables N K : nat.
Implicit Types (p : fm_params R N K) (th : theta N K).

Lemma predict_result_pairwise p D (x : 'M[R]_(D, N)) d :
  predict_result p x d 0 = fm_pairwise p (row d x).
Proof.
rewrite predict_resultE /fm_pairwise; congr (_ + _ + _).
  by apply: eq_bigr => i _; rewrite mxE mulrC.
have pairs k : (\sum_i x d i * param_v p i k) ^+ 2
                - \sum_i x d i ^+ 2 * param_v p i k ^+ 2
    = (\sum_(i < N) \sum_(j < N | (i < j)%N)
         (x d i * param_v p i k) * (x d j * param_v p j k)) *+ 2.
  rewrite -(sum_sq_pairs (fun i => x d i * param_v p i k)); congr (_ - _).
  by apply: eq_bigr => i _; rewrite exprMn.
rewrite (eq_bigr _ (fun k _ => pairs k)).
rewrite sumrMnl half_double exchange_big /=; apply: eq_bigr => i _.
rewrite exchange_big /=; apply: eq_bigr => j _; apply: eq_bigr => k _.
by rewrite !mxE; exact: pair_term.
Qed.

(** X1. On a batch, [predict] returns the reference scores of the rows,
    each row scored on its own (as a float when the batch has one row). *)
Theorem predict_batch_rowwise p D (x : 'M[R]_(D, N)) :
  predict p (Batch x) = squeeze_result (\col_d fm_pairwise p (row d x)).
Proof.
rewrite /predict /=; congr squeeze_result.
by apply/colP => d; rewrite predict_result_pairwise mxE.
Qed.

(** X2. The pair [(x_theta, y_theta)] of [calc_xy_b], [calc_xy_w] and
    [calc_xy_v_naive], computed with [f = predict(x_data)], does not
    depend on the value of the parameter it is computed for: replacing
    that parameter by any [t] and predicting again gives the same pair;
    and [y_theta - theta * x_theta] is the residual [y_data - f]. *)
Theorem calc_xy_independent p D (x_data : 'M[R]_(D, N)) (y_data : 'cV[R]_D) :
  [/\ forall t,
        let p' := set_param p (Theta_b N K) t in
        calc_xy_b (predict_result p' x_data) (param_b p') x_data y_data
        = calc_xy_b (predict_result p x_data) (param_b p) x_data y_data,
      forall i t,
        let p' := set_param p (Theta_w K i) t in
        calc_xy_w (predict_result p' x_data) (param_w p') x_data y_data i
        = calc_xy_w (predict_result p x_data) (param_w p) x_data y_data i,
      forall i k t,
        let p' := set_param p (Theta_v i k) t in
        calc_xy_v_naive (predict_result p' x_data) (param_v p')
          x_data y_data i k
        = calc_xy_v_naive (predict_result p x_data) (param_v p)
            x_data y_data i k
    & forall i k,
        let f := predict_result p x_data in
        [/\ (calc_xy_b f (param_b p) x_data y_data).2
            - param_b p *: (calc_xy_b f (param_b p) x_data y_data).1
            = y_data - f,
            (calc_xy_w f (param_w p) x_data y_data i).2
            - param_w p i 0 *: (calc_xy_w f (param_w p) x_data y_data i).1
            = y_data - f
          & (calc_xy_v_naive f (param_v p) x_data y_data i k).2
            - param_v p i k
              *: (calc_xy_v_naive f (param_v p) x_data y_data i k).1
            = y_data - f]].
Proof.
have g_indep th t :
    predict_result (set_param p th t) x_data - t *: calc_h x_data p th
    = predict_result p x_data - get_param p th *: calc_h x_data p th.
  rewrite predict_affine scalerBl -addrA; congr (_ + _).
  by rewrite [_ - _ - _]addrAC subrr sub0r.
have resid (y f h : 'cV[R]_D) (c : R) : y - (f - c *: h) - c *: h = y - f.
  by rewrite opprB addrA [_ - f - _]addrAC addrK.
split=> [t|i t|i k t|i k] /=.
- by rewrite /calc_xy_b (g_indep (Theta_b N K) t).
- rewrite /calc_xy_w; congr (_, _ - _).
  by have := g_indep (Theta_w K i) t; rewrite /= mxE eqxx.
- rewrite /calc_xy_v_naive -!/(calc_h_v _ _ i k).
  have hE := calc_h_indep x_data p (Theta_v i k) t.
  have := g_indep (Theta_v i k) t; rewrite /= in hE *.
  by rewrite hE mxE !eqxx /= => ->.
- by split; rewrite /= resid.
Qed.

End FMBatch.

(** ** The timing loops *)

Section LoopTheory.

Variable R : realFieldType.
Variables N K : nat.

Lemma set_entry2_same m n (v : 'M[R]_(m, n)) i k : set_entry2 v i k (v i k) = v.
Proof.
by apply/matrixP => a c; rewrite mxE; case: andP => // -[/eqP -> /eqP ->].
Qed.

Lemma set_entry2_twice m n (v : 'M[R]_(m, n)) i k s t :
  set_entry2 (set_entry2 v i k s) i k t = set_entry2 v i k t.
Proof. by apply/matrixP => a c; rewrite !mxE; case: (_ && _). Qed.

Lemma set_entry2_at m n (v : 'M[R]_(m, n)) i k t : set_entry2 v i k t i k = t.
Proof. by rewrite mxE !eqxx. Qed.

(** [v] after [n] passes: entry [[0, 0]] lowered by [100 n]. *)
Lemma lowered_step (v : 'M[R]_(N.+1, K.+1)) n :
  let vn := set_entry2 v 0 0 (v 0 0 - 100%:R *+ n) in
  set_entry2 vn 0 0 (vn 0 0 - 100%:R) = set_entry2 v 0 0 (v 0 0 - 100%:R *+ n.+1).
Proof.
rewrite /= set_entry2_twice set_entry2_at; congr set_entry2.
by set c := 100%:R; rewrite [c *+ n.+1]mulrS opprD addrA addrAC.
Qed.

Lemma calc_h_v_set D (x : 'M[R]_(D, N.+1)) (v : 'M[R]_(N.+1, K.+1)) i k t :
  calc_h_v x (set_entry2 v i k t) i k = calc_h_v x v i k.
Proof. exact: (calc_h_indep x (Params 0 0 v) (Theta_v i k) t). Qed.

Lemma naive_iter D (x : 'M[R]_(D, N.+1)) (v : 'M[R]_(N.+1, K.+1)) n :
  iter n (naive_body x) (v, None)
  = (set_entry2 v 0 0 (v 0 0 - 100%:R *+ n),
     if n is 0 then None else Some (calc_h_v x v 0 0)).
Proof.
elim: n => [|n IH]; first by rewrite /= mulr0n subr0 set_entry2_same.
by rewrite iterS IH /naive_body lowered_step calc_h_v_set.
Qed.

Lemma fast_iter D (x : 'M[R]_(D, N.+1)) (v : 'M[R]_(N.+1, K.+1)) n :
  iter n (fast_body x) (v, calc_q_init x v, None)
  = (set_entry2 v 0 0 (v 0 0 - 100%:R *+ n),
     calc_q_init x (set_entry2 v 0 0 (v 0 0 - 100%:R *+ n)),
     if n is 0 then None else Some (calc_h_v x v 0 0)).
Proof.
elim: n => [|n IH]; first by rewrite /= mulr0n subr0 set_entry2_same.
rewrite iterS IH /fast_body; set vn := set_entry2 v 0 0 _.
have /= -> := @update_q_correct _ _ _ _ x (Params 0 0 vn) _ (Theta_v 0 0)
                (vn 0 0 - 100%:R) (erefl (calc_q_init x vn)).
rewrite [calc_h_v_fast _ _ _ _ _](calc_h_v_fastE x vn 0 0).
by rewrite /vn lowered_step calc_h_v_set.
Qed.

(** X3. The two loops of the second notebook agree for every number of
    passes, in the value they return and in the [v] they leave behind.
    With no pass both fail on the unbound [h]; after at least one pass
    both return [calc_h_v(x, v, 0, 0)] for the initial [v], whatever the
    number of passes, and leave [v[0, 0]] lowered by [100 iter]. *)
Theorem fast_updates_naive_updates D (x : 'M[R]_(D, N.+1))
    (v : 'M[R]_(N.+1, K.+1)) n :
  fast_updates n x v = naive_updates n x v
  /\ naive_updates n x v
     = (if n is 0 then None else Some (calc_h_v x v 0 0),
        set_entry2 v 0 0 (v 0 0 - 100%:R *+ n)).
Proof. by rewrite /fast_updates /naive_updates fast_iter naive_iter. Qed.

(** X4. The two loops of the first notebook agree in the same way; the
    value they return depends neither on [y_data] nor on the prediction
    [f], and is the [calc_h_v(x_data, v, 0, 0)] of the initial [v]. *)
Theorem first_notebook_updates_agree D (fm : fm_params R N.+1 K.+1)
    (x_data : 'M[R]_(D, N.+1)) (y_data : 'cV[R]_D) n :
  FirstNotebook.fast_updates n fm x_data y_data
  = FirstNotebook.naive_updates n fm x_data y_data
  /\ FirstNotebook.naive_updates n fm x_data y_data
     = (if n is 0 then None else Some (calc_h_v x_data (param_v fm) 0 0),
        set_entry2 (param_v fm) 0 0 (param_v fm 0 0 - 100%:R *+ n)).
Proof.
rewrite /FirstNotebook.fast_updates /FirstNotebook.naive_updates.
have fastE :
    FirstNotebook.fast_body (predict_result fm x_data) x_data y_data
    =1 @fast_body R N K D x_data.
  by move=> s; case: s => [[v q] h].
have naiveE :
    FirstNotebook.naive_body (predict_result fm x_data) x_data y_data
    =1 @naive_body R N K D x_data.
  by move=> s; case: s => [v h].
by rewrite (eq_iter fastE) (eq_iter naiveE) fast_iter naive_iter.
Qed.

End LoopTheory.

(** ** How updates compose *)

Section UpdateAlgebra.

Variable R : realFieldType.
Variables N K : nat.
Implicit Types (p : fm_params R N K) (th : theta N K).

Lemma set_entry1_same n (w : 'cV[R]_n) i : set_entry1 w i (w i 0) = w.
Proof.
by apply/colP => j; rewrite mxE; case: eqP => // ->.
Qed.

Lemma set_entry1_twice n (w : 'cV[R]_n) i s t :
  set_entry1 (set_entry1 w i s) i t = set_entry1 w i t.
Proof. by apply/colP => j; rewrite !mxE; case: (_ == _). Qed.

Lemma set_param_same p th : set_param p th (get_param p th) = p.
Proof.
by case: p th => b w v [|i|i k] //=; rewrite ?set_entry1_same ?set_entry2_same.
Qed.

Lemma set_param_twice p th s t :
  set_param (set_param p th s) th t = set_param p th t.
Proof.
by case: th => [|i|i k] //=; rewrite ?set_entry1_twice ?set_entry2_twice.
Qed.

Lemma add_col_twice m n (q : 'M[R]_(m, n)) k (a b : 'cV[R]_m) :
  add_col (add_col q k a) k b = add_col q k (a + b).
Proof.
by apply/matrixP => d c; rewrite !mxE; case: (_ == _); rewrite // addrA.
Qed.

Lemma add_col0 m n (q : 'M[R]_(m, n)) k : add_col q k 0 = q.
Proof. by apply/matrixP => d c; rewrite !mxE addr0 if_same. Qed.

(** The cached [h] of a parameter is not changed by an update of that
    parameter, whatever the cache holds. *)
Lemma calc_h_fast_own_update D (x : 'M[R]_(D, N)) p (q : 'M[R]_(D, K)) th t :
  calc_h_fast x (set_param p th t) (update_q x (param_v p) q th t) th
  = calc_h_fast x p q th.
Proof.
case: th => [|i|i k] //=; apply/colP => d.
rewrite /calc_h_v_fast /calc_dq !mxE !eqxx /=; congr (_ * _).
by rewrite -addrA; congr (_ + _); rewrite mulrBl addrAC subrr sub0r.
Qed.

Lemma update_q_twice D (x : 'M[R]_(D, N)) p (q : 'M[R]_(D, K)) th s t :
  update_q x (param_v (set_param p th s)) (update_q x (param_v p) q th s) th t
  = update_q x (param_v p) q th t.
Proof.
case: th => [|i|i k] //=; rewrite add_col_twice /calc_dq set_entry2_at.
by rewrite -scalerDl [s - _ + _]addrC subrKA.
Qed.

Lemma apply_update_twice D (x : 'M[R]_(D, N)) (s : fm_state R N K D) th t1 t2 :
  apply_update x (apply_update x s (th, t1)) (th, t2)
  = apply_update x s (th, t2).
Proof.
case: s => p f q; rewrite /apply_update /=.
rewrite set_param_twice update_q_twice calc_h_fast_own_update get_set_param.
by rewrite /calc_df -addrA -scalerDl [t1 - _ + _]addrC subrKA.
Qed.

Lemma apply_update_same D (x : 'M[R]_(D, N)) (s : fm_state R N K D) th :
  apply_update x s (th, get_param (st_params s) th) = s.
Proof.
case: s => p f q; rewrite /apply_update /= set_param_same.
rewrite /calc_df subrr scale0r addr0; congr State.
by case: th => [|i|i k] //=; rewrite /calc_dq subrr scale0r add_col0.
Qed.

(** X5. Two updates of the same parameter in a row are one update to the
    second value: the parameters, [f] and [q] end up as if the first
    update had not been made.  This holds for every cache, also one that
    is not consistent with the parameters. *)
Theorem update_merge D (x : 'M[R]_(D, N)) (s : fm_state R N K D) th t1 t2 :
  apply_update x (apply_update x s (th, t1)) (th, t2)
  = apply_update x s (th, t2).
Proof. exact: apply_update_twice. Qed.

(** X6. Undoing an update: an update followed by the update back to the
    old value restores the parameters, [f] and [q] exactly, for every
    cache. *)
Theorem update_undo D (x : 'M[R]_(D, N)) (s : fm_state R N K D) th t :
  apply_update x (apply_update x s (th, t)) (th, get_param (st_params s) th)
  = s.
Proof. by rewrite apply_update_twice apply_update_same. Qed.

Lemma set_entry1_comm n (w : 'cV[R]_n) i j s t :
  i != j ->
  set_entry1 (set_entry1 w i s) j t = set_entry1 (set_entry1 w j t) i s.
Proof.
move=> ij; apply/colP => a; rewrite !mxE.
by case: (eqVneq a j) => [->|//]; rewrite eq_sym (negPf ij).
Qed.

Lemma set_entry2_comm m n (v : 'M[R]_(m, n)) i k j l s t :
  (i, k) != (j, l) ->
  set_entry2 (set_entry2 v i k s) j l t = set_entry2 (set_entry2 v j l t) i k s.
Proof.
move=> ne; apply/matrixP => a c; rewrite !mxE.
case: (eqVneq a j) => [->|//] /=; case: (eqVneq c l) => [->|//] /=.
by rewrite -xpair_eqE eq_sym (negPf ne).
Qed.

Lemma set_param_comm p th1 th2 t1 t2 :
  th1 <> th2 ->
  set_param (set_param p th1 t1) th2 t2 = set_param (set_param p th2 t2) th1 t1.
Proof.
case: th1 th2 => [|i|i k] [|j|j l] //= ne.
- case: (eqVneq i j) => [ij|/set_entry1_comm -> //].
  by case: ne; rewrite ij.
- case: (eqVneq (i, k) (j, l)) => [[ij kl]|/set_entry2_comm -> //].
  by case: ne; rewrite ij kl.
Qed.

Lemma consistent_eq D (x : 'M[R]_(D, N)) (s1 s2 : fm_state R N K D) :
  consistent x s1 -> consistent x s2 -> st_params s1 = st_params s2 ->
  s1 = s2.
Proof.
case: s1 s2 => p1 f1 q1 [p2 f2 q2] [/= -> ->] [/= -> ->] ->.
by [].
Qed.

(** X7. Updates of two different parameters commute: after any sequence
    of updates, making the two in either order leads to the same
    parameters and the same cached [f] and [q]. *)
Theorem updates_commute D (x : 'M[R]_(D, N)) p us th1 t1 th2 t2 :
  th1 <> th2 ->
  run_updates x p (us ++ [:: (th1, t1); (th2, t2)])
  = run_updates x p (us ++ [:: (th2, t2); (th1, t1)]).
Proof.
move=> ne; apply: (@consistent_eq D x); try exact: run_updates_consistent.
by rewrite /run_updates !foldl_cat /= set_param_comm.
Qed.

End UpdateAlgebra.

(** The theorem of X7 on a bias and a weight. *)
Lemma updates_commute_witness :
  run_updates ex_batch1 ex_params [:: (ex_theta_b, 2); (ex_theta_w, 4)]
  = run_updates ex_batch1 ex_params [:: (ex_theta_w, 4); (ex_theta_b, 2)].
Proof.
by apply: (@updates_commute _ _ _ _ ex_batch1 ex_params [::]).
Defined.

(** ** More on the sampler *)

Section SamplerExtras.

Variable R : rcfType.
Variables D N : nat.
Implicit Types (Phi : 'M[R]_(D, N)) (alpha : 'cV[R]_D).
Implicit Types (Delta : covariance R N) (dr : draws R D N).

Lemma sample_u_zero Delta : sample_u Delta (zero_draws R D N) = 0.
Proof.
case: Delta => [d|M] //=; apply/colP => i.
by rewrite /rng_normal !mxE mulr0 addr0.
Qed.

(** X8. With all draws equal to zero the sampler returns the mean
    [m = V Phi^T alpha] of the target, for every symmetric positive
    definite [Delta]. *)
Theorem sampler_zero_draws Phi alpha Delta :
  spd (dense Delta) ->
  sample_gaussian_efficient Phi alpha Delta (zero_draws R D N)
  = Some (target_mean Phi alpha (dense Delta)).
Proof.
move=> spdD; have [-> <- _] := sampler_moments Phi alpha spdD.
by rewrite /affine_apply sample_u_zero /= !mulmx0 !addr0.
Qed.

Lemma sampler_gain_compl Phi (M : 'M[R]_N) :
  spd M ->
  1%:M - sampler_gain Phi M *m Phi = target_cov Phi M *m invmx M.
Proof.
move=> spdM; have uP := posdef_unit (posdef_precision Phi spdM).
rewrite sampler_gainE // /target_cov; set P := _ + invmx M in uP *.
have VP : invmx P *m (Phi^T *m Phi) + invmx P *m invmx M = 1%:M.
  by rewrite -mulmxDr mulVmx.
by rewrite -VP -mulmxA addrC addKr.
Qed.

(** X9. Every value the sampler returns solves the [N x N] system of the
    direct method with perturbed data:
    [(Phi^T Phi + Delta^-1) theta = Phi^T (alpha - eps) + Delta^-1 u]. *)
Theorem sampler_normal_equations Phi alpha Delta dr :
  spd (dense Delta) ->
  exists2 theta,
    sample_gaussian_efficient Phi alpha Delta dr = Some theta
    & (Phi^T *m Phi + invmx (dense Delta)) *m theta
      = Phi^T *m (alpha - draw_eps dr) + invmx (dense Delta) *m sample_u Delta dr.
Proof.
move=> spdD; have [aff _ _] := sampler_moments Phi alpha spdD.
have uP := posdef_unit (posdef_precision Phi spdD).
exists (affine_apply (sampler_affine Phi alpha (dense Delta))
          (sample_u Delta dr) (draw_eps dr)); first exact: aff.
rewrite /affine_apply /= sampler_gain_compl // sampler_gainE //.
rewrite /target_cov; set P := _ + invmx _ in uP *.
rewrite mulNmx -!mulmxA -mulmxDr -mulmxBr mulmxA mulmxV // mul1mx.
by rewrite mulmxBr [LHS]addrAC.
Qed.

Lemma np_diag_quad (d : 'cV[R]_N) (x : 'rV[R]_N) :
  (x *m np_diag d *m x^T) 0 0 = \sum_i d i 0 * x 0 i ^+ 2.
Proof.
rewrite /np_diag mul_mx_diag mxE; apply: eq_bigr => i _.
by rewrite !mxE expr2 mulrAC [RHS]mulrC.
Qed.

Lemma np_diag_psd (d : 'cV[R]_N) :
  (forall i, 0 <= d i 0) -> possemidef (np_diag d).
Proof.
move=> d_ge0 x; rewrite np_diag_quad sumr_ge0 // => i _.
by rewrite mulr_ge0 ?sqr_ge0.
Qed.

Lemma np_diag_spd (d : 'cV[R]_N) : (forall i, 0 < d i 0) -> spd (np_diag d).
Proof.
move=> d_gt0; split; first exact: tr_diag_mx.
move=> x xn0; rewrite np_diag_quad lt_neqAle eq_sym; apply/andP; split.
  have term_ge0 (i : 'I_N) : true -> 0 <= d i 0 * x 0 i ^+ 2.
    by move=> _; rewrite mulr_ge0 ?sqr_ge0 // ltW.
  apply: contra xn0; rewrite (psumr_eq0 _ term_ge0) => /allP x0.
  apply/eqP/rowP => i; rewrite mxE; apply/eqP.
  have /= := x0 i (mem_index_enum i).
  by rewrite mulf_eq0 expf_eq0 /= (gt_eqF (d_gt0 i)).
by rewrite sumr_ge0 // => i _; rewrite mulr_ge0 ?sqr_ge0 // ltW.
Qed.

Lemma psd_system Phi (M : 'M[R]_N) :
  possemidef M -> posdef (Phi *m M *m Phi^T + 1%:M).
Proof.
move=> psdM x xn0; rewrite mulmxDr mulmxDl mxE mulmx1 posdef_congr.
by rewrite ltr_wpDl ?gram_gt0.
Qed.

(** X10. A [Delta] that is only positive semidefinite never makes the
    sampler fail: the matrix of the linear solve is still positive
    definite.  This covers every diagonal [Delta] without negative entry,
    zero entries included. *)
Theorem sampler_total_on_psd Phi alpha dr :
  (forall Delta, possemidef (dense Delta) ->
     sample_gaussian_efficient Phi alpha Delta dr <> None)
  /\ (forall d : 'cV[R]_N, (forall i, 0 <= d i 0) ->
        sample_gaussian_efficient Phi alpha (Diagonal d) dr <> None).
Proof.
have psd Delta : possemidef (dense Delta) ->
    sample_gaussian_efficient Phi alpha Delta dr <> None.
  by move=> /(psd_system Phi) /posdef_unit uS; rewrite sample_affine.
by split=> // d /np_diag_psd; apply: (psd (Diagonal d)).
Qed.

(** X11. For a diagonal [Delta] with positive entries the cell that sets
    up the comparison succeeds: its [V] is the target covariance
    [(Phi^T Phi + Delta^-1)^-1], it is symmetric positive definite, which
    is what [np.random.multivariate_normal(m, V)] requires, and its [m]
    is the target mean. *)
Theorem direct_target_valid Phi alpha (d : 'cV[R]_N) :
  (forall i, 0 < d i 0) ->
  [/\ direct_V Phi d = Some (target_cov Phi (np_diag d)),
      direct_m Phi alpha d = Some (target_mean Phi alpha (np_diag d))
    & spd (target_cov Phi (np_diag d))].
Proof.
move=> d_gt0; have spdD := np_diag_spd d_gt0.
have dn0 i : d i 0 != 0 by rewrite gt_eqF.
have pdP := posdef_precision Phi spdD.
have VE : direct_V Phi d = Some (target_cov Phi (np_diag d)).
  by rewrite /direct_V /np_inv -invmx_np_diag // (posdef_unit pdP).
have symP : symmetric (Phi^T *m Phi + invmx (np_diag d)).
  rewrite /symmetric linearD /= trmx_mul trmxK.
  by rewrite (symmetric_inv (proj1 spdD)).
split=> //; first by rewrite /direct_m VE.
split; first by apply: target_cov_sym; case: spdD.
by apply: posdef_inv.
Qed.

End SamplerExtras.

Section DiagonalMoments.

Variable R : rcfType.
Variables (T : Type) (E : (T -> R) -> R).
Variables D N : nat.

(** X12. The diagonal branch from the standard variates: when the
    variates [z] and [eps] behind the two calls of [rng.normal] are
    centred with covariance [I] and uncorrelated, and the entries of the
    1-dimensional [Delta] are positive, the returned [theta] has mean [m]
    and covariance [V]. *)
Theorem diagonal_sampler_moments (Phi : 'M[R]_(D, N)) (alpha : 'cV[R]_D)
    (d : 'cV[R]_N) (dr : T -> draws R D N) :
  expectation E ->
  (forall i, 0 < d i 0) ->
  standard_draws E 1%:M (fun o => draw_z (dr o)) (fun o => draw_eps (dr o)) ->
  exists theta : T -> 'cV[R]_N,
    [/\ forall o, sample_gaussian_efficient Phi alpha (Diagonal d) (dr o)
                  = Some (theta o),
        Emx E theta = target_mean Phi alpha (np_diag d)
      & cov_of E theta = target_cov Phi (np_diag d)].
Proof.
move=> EP d_gt0 std.
have spdD : spd (dense (Diagonal d)) by apply: np_diag_spd.
have d_ge0 i : 0 <= d i 0 by rewrite ltW.
have [Eu Ee Euu Eee Eue] := diagonal_draw_moments EP d_ge0 std.
have [aff mean cov] := sampler_moments Phi alpha spdD.
pose f := sampler_affine Phi alpha (np_diag d).
have [Em Ec] := affine_moments EP f Eu Ee Euu Eee Eue.
exists (fun o => affine_apply f (rng_normal 0 (np_sqrt d) (draw_z (dr o)))
                   (draw_eps (dr o))).
by split=> [o||]; [exact: aff | rewrite Em -mean | rewrite Ec cov].
Qed.

End DiagonalMoments.

(** The theorem of X8 at [Phi = [[1]]], [alpha = [3]], [Delta = [[1]]]. *)
Lemma sampler_zero_draws_witness :
  sample_gaussian_efficient ex_Phi ex_alpha ex_unit_Delta (zero_draws algR 1 1)
  = Some (target_mean ex_Phi ex_alpha (dense ex_unit_Delta)).
Proof. by apply: sampler_zero_draws; exact: spd1. Defined.

(** The theorem of X9 on the same input and the draws [ex_draws]. *)
Lemma sampler_normal_equations_witness :
  exists2 theta,
    sample_gaussian_efficient ex_Phi ex_alpha ex_unit_Delta ex_draws
    = Some theta
    & (ex_Phi^T *m ex_Phi + invmx (dense ex_unit_Delta)) *m theta
      = ex_Phi^T *m (ex_alpha - draw_eps ex_draws)
        + invmx (dense ex_unit_Delta) *m sample_u ex_unit_Delta ex_draws.
Proof. by apply: sampler_normal_equations; exact: spd1. Defined.

(** The theorem of X10 on the diagonal [Delta = [0]]. *)
Lemma sampler_total_on_psd_witness :
  sample_gaussian_efficient ex_Phi ex_alpha (Diagonal 0) ex_draws <> None.
Proof.
apply: (proj2 (sampler_total_on_psd ex_Phi ex_alpha ex_draws)) => i.
by rewrite mxE.
Defined.

(** The theorem of X11 at [Delta = [1]]. *)
Lemma direct_target_valid_witness :
  [/\ direct_V ex_Phi ex_ones_Delta
      = Some (target_cov ex_Phi (np_diag ex_ones_Delta)),
      direct_m ex_Phi ex_alpha ex_ones_Delta
      = Some (target_mean ex_Phi ex_alpha (np_diag ex_ones_Delta))
    & spd (target_cov ex_Phi (np_diag ex_ones_Delta))].
Proof. by apply: direct_target_valid => i; rewrite mxE ltr01. Defined.

(** The theorem of X12 on two fair signs and [Delta = [1]]. *)
Lemma diagonal_sampler_moments_witness :
  exists theta : bool * bool -> 'cV[algR]_1,
    [/\ forall o, sample_gaussian_efficient ex_Phi ex_alpha
                    (Diagonal ex_ones_Delta) (ex_diag_draws o)
                  = Some (theta o),
        Emx E4 theta = target_mean ex_Phi ex_alpha (np_diag ex_ones_Delta)
      & cov_of E4 theta = target_cov ex_Phi (np_diag ex_ones_Delta)].
Proof.
apply: diagonal_sampler_moments.
- exact: E4_expectation.
- by move=> i; rewrite mxE ltr01.
- exact: ex_standard_draws.
Defined.

(** ** More on the shapes *)

Section ShapeExtras.

Import Shapes.

(** X13. A [Delta] of any shape other than [(N,)] and [(N, N)] is
    refused by one of the array operations, whatever [alpha] is. *)
Theorem wrong_Delta_shape_rejected D N alpha Delta :
  Delta <> Sh1 N -> Delta <> Sh2 N N ->
  Shapes.sample_gaussian_efficient (Sh2 D N) alpha Delta = None.
Proof.
case: Delta => [|M|P Q] ne1 ne2; rewrite /Shapes.sample_gaussian_efficient //.
- have NM : (N == M) = false.
    by apply/eqP => NM; case: ne1; rewrite NM.
  rewrite [broadcast _ _]/= /bdim NM.
  case: (eqVneq N 1%N) => [N1|_] /=; first by rewrite NM.
  case: (eqVneq M 1%N) => [M1|//] /=.
  by do 3![rewrite ?bdim_same ?eqxx /=]; rewrite /bdim ?eqxx /= NM.
- rewrite [multivariate_normal _ _]/=.
  case: ifP => // /and3P[/eqP PQ /eqP NP _].
  by case: ne2; rewrite -PQ -NP.
Qed.

(** X14. With [Phi] of shape [(D, N)] and a [Delta] that fits, a
    1-dimensional [alpha] of length [a] is accepted exactly when [a = D]
    or [a = 1]: an [alpha] of length 1 is broadcast whatever [D] is, and
    every other length is refused.  A [Delta] fits when its shape is
    [(N,)], or [(N, N)] with [N >= 1]; with [N = 0] a 2-dimensional
    [Delta] is refused for every [alpha].  When accepted the result has
    shape [(N,)]. *)
Theorem alpha_vector_accepted D N a :
  Shapes.sample_gaussian_efficient (Sh2 D N) (Sh1 a) (Sh1 N)
  = (if (a == D) || (a == 1%N) then Some (Sh1 N) else None)
  /\ Shapes.sample_gaussian_efficient (Sh2 D N) (Sh1 a) (Sh2 N N)
     = (if (N != 0%N) && ((a == D) || (a == 1%N)) then Some (Sh1 N)
        else None).
Proof.
have finish : forall r : option shape,
    r = (if omap Sh1 (bdim a D) is Some b
         then if solve (Sh2 D D) b is Some w
              then if matmul (Sh2 N D) w is Some s then broadcast (Sh1 N) s
                   else None
              else None
         else None) ->
    r = if (a == D) || (a == 1%N) then Some (Sh1 N) else None.
  move=> r ->; rewrite /bdim; case: (eqVneq a D) => [->|aD] /=.
    by do 3![rewrite ?bdim_same ?eqxx /=].
  case: (eqVneq a 1%N) => [_|a1] /=.
    by do 3![rewrite ?bdim_same ?eqxx /=].
  by case: (eqVneq D 1%N) => [->|//] /=; rewrite (negPf a1).
split.
  by apply: finish; rewrite /Shapes.sample_gaussian_efficient;
    do 6![rewrite ?bdim_same ?eqxx /=].
rewrite /Shapes.sample_gaussian_efficient [multivariate_normal _ _]/= !eqxx /=.
case: (N != 0%N) => //=.
by apply: finish; do 6![rewrite ?bdim_same ?eqxx /=].
Qed.

End ShapeExtras.

(** The theorem of X13 on a [Delta] of length 4 with [N = 3]. *)
Lemma wrong_Delta_shape_rejected_witness :
  Shapes.sample_gaussian_efficient
    (Shapes.Sh2 2 3) (Shapes.Sh1 2) (Shapes.Sh1 4) = None.
Proof. by apply: wrong_Delta_shape_rejected. Defined.

(** An [alpha] of length 1 against [D = 2], and an empty problem with a
    2-dimensional [Delta]. *)
Example alpha_vector_accepted_runs :
  Shapes.sample_gaussian_efficient
    (Shapes.Sh2 2 3) (Shapes.Sh1 1) (Shapes.Sh2 3 3) = Some (Shapes.Sh1 3)
  /\ Shapes.sample_gaussian_efficient
       (Shapes.Sh2 2 0) (Shapes.Sh1 2) (Shapes.Sh2 0 0) = None.
Proof. by []. Qed.
